(** * Masked-document modelling pipeline of MD2vec/run_lm_finetuning.py

    A shallow embedding of the corpus loader, the vocabulary builder and
    tokenizer, the masking policy, the feature encoder, the sample provider,
    the entity-weight builder and the sweep loop of [main], followed by the
    properties established about them.

    Conventions.
    - Python [str] is modelled by [string]; the model covers ASCII text
      (a byte above 127 is neither a letter nor white space).
    - Python [dict] is a [gmap], Python [set] a [gset]; no property below
      depends on iteration order.
    - Python exceptions are values of [PyError]; a computation that may
      raise returns a [result].
    - The process-global random generator is an explicit tape of draws. *)

From Stdlib Require Import ZArith QArith Qround String Ascii List Lia.
From stdpp Require Import gmap strings list fin_maps sorting.

Open Scope string_scope.
Open Scope list_scope.
Open Scope Z_scope.

(** ** Exceptions and results *)

Inductive PyError : Type :=
  | ValueError (msg : string)
  | KeyError (key : string)
  | IndexError
  | TypeError
  | ZeroDivisionError
  | AttributeError.

Inductive result (A : Type) : Type :=
  | Ok (a : A)
  | Err (e : PyError).
Arguments Ok {A} a.
Arguments Err {A} e.

#[global] Instance result_ret : MRet result := λ A a, Ok a.
#[global] Instance result_bind : MBind result := λ A B f m,
  match m with
  | Ok a => f a
  | Err e => Err e
  end.

(** The spec's [ConfigurationError] is what the code raises as
    [ValueError] (as in the gradient_accumulation_steps check of [main]). *)
Definition is_ConfigurationError (e : PyError) : bool :=
  match e with ValueError _ => true | _ => false end.

(** ** Strings: the fragment of [str] the pipeline uses *)

Module Str.

Definition code (c : ascii) : nat := nat_of_ascii c.

Definition is_upper (c : ascii) : bool :=
  ((65 <=? code c) && (code c <=? 90))%nat.
Definition is_lower (c : ascii) : bool :=
  ((97 <=? code c) && (code c <=? 122))%nat.

(** [\w] minus [\d]: a letter or the underscore. *)
Definition is_alphabetic (c : ascii) : bool :=
  is_upper c || is_lower c || (code c =? 95)%nat.

(** [str.isspace] on ASCII: TAB..CR, FS..US and the space. *)
Definition is_space (c : ascii) : bool :=
  ((9 <=? code c) && (code c <=? 13) || (28 <=? code c) && (code c <=? 32))%nat.

Definition lower_ascii (c : ascii) : ascii :=
  if is_upper c then ascii_of_nat (code c + 32) else c.

Fixpoint lower (s : string) : string :=
  match s with
  | EmptyString => EmptyString
  | String c s' => String (lower_ascii c) (lower s')
  end.

Fixpoint forallb (p : ascii → bool) (s : string) : bool :=
  match s with
  | EmptyString => true
  | String c s' => p c && forallb p s'
  end.

Definition startswith (c : ascii) (s : string) : bool :=
  match s with
  | EmptyString => false
  | String c' _ => bool_decide (c' = c)
  end.

Fixpoint lstrip (s : string) : string :=
  match s with
  | EmptyString => EmptyString
  | String c s' => if is_space c then lstrip s' else s
  end.

(** [rstrip] keeps a character when something non-blank follows it. *)
Fixpoint rstrip (s : string) : string :=
  match s with
  | EmptyString => EmptyString
  | String c s' =>
      match rstrip s' with
      | EmptyString => if is_space c then EmptyString else String c EmptyString
      | r => String c r
      end
  end.

Definition strip (s : string) : string := rstrip (lstrip s).

(** [sep.join(parts)] *)
Fixpoint join (sep : string) (parts : list string) : string :=
  match parts with
  | [] => EmptyString
  | [p] => p
  | p :: ps => p +:+ sep +:+ join sep ps
  end.

End Str.

(** ** gensim.utils.simple_preprocess

    Library code, modelled from its definition: the text is lower-cased,
    the maximal runs of alphabetic characters (regular expression
    [(((?![\d])\w)+)]) are the candidate tokens, and a candidate is kept
    when its length is between [min_len = 2] and [max_len = 15] and it does
    not start with an underscore.

    The model is that of ASCII text: a string is a sequence of bytes, and a
    byte above 127 is a separator, where the library keeps the letters
    outside ASCII as word characters.  A property that depends on the shape
    of a token is stated for ASCII documents ([ascii_text] below). *)

Definition emit (cur : string) : list string :=
  match cur with
  | EmptyString => []
  | _ => [cur]
  end.

Fixpoint simple_tokenize_go (cur : string) (s : string) : list string :=
  match s with
  | EmptyString => emit cur
  | String c s' =>
      if Str.is_alphabetic c
      then simple_tokenize_go (cur +:+ String c EmptyString) s'
      else emit cur ++ simple_tokenize_go EmptyString s'
  end.

Definition simple_tokenize (s : string) : list string :=
  simple_tokenize_go EmptyString s.

Definition keep_token (t : string) : bool :=
  ((2 <=? String.length t) && (String.length t <=? 15))%nat
  && negb (Str.startswith "_"%char t).

Definition simple_preprocess (doc : string) : list string :=
  filter (λ t, keep_token t) (simple_tokenize (Str.lower doc)).


(** ** MyDataset.__init__: the corpus loader

    The corpus is either a path, modelled by the lines that iterating the
    opened file yields, or an in-memory list of documents. *)

Inductive corpus : Type :=
  | CorpusPath (lines : list string)
  | CorpusList (docs : list string).

(** Loop state: [self.all_docs], [doc] and [self.corpus_lines]. *)
Record load_state : Type := LoadState {
  ls_all_docs : list string;
  ls_doc : string;
  ls_corpus_lines : nat
}.

Definition load_line (st : load_state) (line : string) : load_state :=
  let line := Str.strip line in
  if bool_decide (line = EmptyString)
  then {| ls_all_docs := ls_all_docs st ++ [ls_doc st];
          ls_doc := EmptyString;
          ls_corpus_lines := ls_corpus_lines st |}
  else {| ls_all_docs := ls_all_docs st;
          ls_doc := ls_doc st +:+ line;
          ls_corpus_lines := S (ls_corpus_lines st) |}.

Definition load_lines (lines : list string) : load_state :=
  foldl load_line (LoadState [] EmptyString 0) lines.

(** [self.all_docs[-1]] raises IndexError on the empty list; it is the
    left operand of [and], so it is evaluated first. *)
Definition load_tail (st : load_state) : result (list string) :=
  match last (ls_all_docs st) with
  | None => Err IndexError
  | Some d =>
      if bool_decide (d ≠ ls_doc st) && bool_decide (ls_doc st ≠ EmptyString)
      then Ok (ls_all_docs st ++ [ls_doc st])
      else Ok (ls_all_docs st)
  end.

Definition load_corpus (c : corpus) : result (list string) :=
  match c with
  | CorpusPath lines => load_tail (load_lines lines)
  | CorpusList docs => Ok docs
  end.

(** ** sklearn's CountVectorizer, as [Tokenizer.__init__] uses it

    Library code, modelled from its definition for the call
    [CountVectorizer(max_df, min_df, max_features, tokenizer)] followed by
    [fit_transform(docs)]: integer [max_df]/[min_df] are absolute document
    counts; the analyzer lower-cases a document and applies the tokenizer;
    the terms are sorted, pruned by document frequency, cut to the
    [max_features] most frequent ones, and numbered in sorted order. *)

Module CountVectorizer.

Section fit.
Variable tokenizer : string → list string.
Variables max_df min_df : Z.
Variable max_features : Z.

Definition analyze (doc : string) : list string :=
  tokenizer (Str.lower doc).

(** Distinct terms in order of first occurrence. *)
Definition count_vocab (docs_tok : list (list string)) : list string :=
  remove_dups (concat docs_tok).

(** Document frequency and total term frequency of a term. *)
Definition df (docs_tok : list (list string)) (t : string) : Z :=
  Z.of_nat (length (filter (λ d, t ∈ d) docs_tok)).
Definition tf (docs_tok : list (list string)) (t : string) : Z :=
  Z.of_nat (length (filter (λ x, x = t) (concat docs_tok))).

Definition sort_features (terms : list string) : list string :=
  merge_sort String.le terms.

(** The [limit] terms of highest total frequency, as the argsort of
    the negated frequencies selects them.  The order among terms of
    equal frequency is the sort's: the library's argsort is not stable, and
    which of several terms of equal frequency survives the cut is not
    that of this (stable) sort.  No property below depends on it. *)
Definition more_frequent (docs_tok : list (list string)) (a b : string) : Prop :=
  tf docs_tok b ≤ tf docs_tok a.
#[local] Instance more_frequent_dec docs_tok : RelDecision (more_frequent docs_tok).
Proof. intros a b. unfold more_frequent. apply _. Defined.

Definition top_features (docs_tok : list (list string)) (limit : nat)
    (terms : list string) : list string :=
  take limit (merge_sort (more_frequent docs_tok) terms).

Definition limit_features (docs_tok : list (list string))
    (terms : list string) : list string :=
  let in_range :=
    filter (λ t, df docs_tok t ≤ max_df ∧ min_df ≤ df docs_tok t) terms in
  if max_features <? Z.of_nat (length in_range)
  then let top := top_features docs_tok (Z.to_nat max_features) in_range in
       filter (λ t, t ∈ top) in_range
  else in_range.

(** The fitted [vocabulary_], term to column index. *)
Definition fit (docs : list string) : result (gmap string nat) :=
  if max_features <=? 0
  then Err (ValueError "max_features is neither a positive integer nor None")
  else
    let docs_tok := analyze <$> docs in
    let terms := count_vocab docs_tok in
    if bool_decide (terms = [])
    then Err (ValueError "empty vocabulary; perhaps the documents only contain stop words")
    else if max_df <? min_df
    then Err (ValueError "max_df corresponds to < documents than min_df")
    else
      let kept := limit_features docs_tok (sort_features terms) in
      if bool_decide (kept = [])
      then Err (ValueError "After pruning, no terms remain. Try a lower min_df or a higher max_df.")
      else Ok (list_to_map (zip kept (seq 0 (length kept)))).
End fit.

End CountVectorizer.

(** ** Tokenizer *)

Definition UNK : string := "[UNK]".
Definition MASK : string := "[MASK]".

Record Tokenizer : Type := mkTokenizer {
  doc_len : nat;
  lower_case : bool;
  vocab : gmap string nat;
  ids_to_tokens : gmap nat string
}.

Definition tokenize (doc : string) : list string := simple_preprocess doc.

(** [OrderedDict([(ids, tok) for tok, ids in vocab.items()])]: a pair
    later in the sequence overrides an earlier one with the same id. *)
Definition invert_vocab (v : gmap string nat) : gmap nat string :=
  foldl (λ m p, <[p.2 := p.1]> m) ∅ (map_to_list v).

Definition Tokenizer_init (docs : list string) (vocab_size : Z)
    (lower_case : bool) : result Tokenizer :=
  v0 ← CountVectorizer.fit tokenize 1000 2 (vocab_size - 2) docs;
  let v1 := <[UNK := size v0]> v0 in
  let v2 := <[MASK := size v1]> v1 in
  Ok {| doc_len := length docs;
        lower_case := lower_case;
        vocab := v2;
        ids_to_tokens := invert_vocab v2 |}.

(** [self.ids_to_tokens[i]] raises KeyError for an unknown id. *)
Definition convert_ids_to_tokens (tk : Tokenizer) (ids : list nat)
    : result (list string) :=
  mapM (λ i, match ids_to_tokens tk !! i with
             | Some t => Ok t
             | None => Err (KeyError "id")
             end) ids.

(** [self.vocab["[UNK]"]] raises KeyError when the entry is missing. *)
Definition vocab_getitem (v : gmap string nat) (t : string) : result nat :=
  match v !! t with
  | Some i => Ok i
  | None => Err (KeyError t)
  end.

Definition convert_tokens_to_ids (tk : Tokenizer) (tokens : list string)
    : result (list nat) :=
  mapM (λ t, match vocab tk !! t with
             | None => vocab_getitem (vocab tk) UNK
             | Some i => Ok i
             end) tokens.

Definition docs2 : list string := ["the cat sat"; "the dog ran"].
Definition docs3 : list string := ["cat dog"; "dog cat bird"; "bird bird cat"].

(** ** The process-global random generator

    [random.randint] and [random.random] read the generator that [main]
    seeds.  The generator is modelled by the tape of its future raw draws:
    every sequence of outcomes the generator can produce is the reading of
    some tape, so a property proved for all tapes holds for all outcomes. *)

Definition tape : Type := list N.

Definition draw (g : tape) : N * tape :=
  match g with
  | [] => (0%N, [])
  | n :: g' => (n, g')
  end.

(** [random.randint(a, b)]: an integer of [a..b], ValueError when empty. *)
Definition randint (a b : Z) (g : tape) : result (Z * tape) :=
  if b <? a then Err (ValueError "empty range for randrange()")
  else let '(n, g') := draw g in Ok (a + Z.of_N n mod (b - a + 1), g').

(** [random.random()]: a multiple of 2^-53 in [0, 1). *)
Definition random (g : tape) : Q * tape :=
  let '(n, g') := draw g in
  (Z.of_N (n mod 2 ^ 53) # 2 ^ 53, g').

Definition Qltb (x y : Q) : bool := negb (Qle_bool y x).

(** ** random_word: the masking policy *)

#[global] Instance result_fmap : FMap result := λ A B f m,
  match m with
  | Ok a => Ok (f a)
  | Err e => Err e
  end.

(** The comprehension of the single-token branch, over [enumerate(tokens)]. *)
Definition single_label (v : gmap string nat) (mask_index : Z)
    (it : nat * string) : result Z :=
  if bool_decide (Z.of_nat it.1 = mask_index)
  then Z.of_nat <$> vocab_getitem v it.2
  else Ok (-1).

(** The loop of the probabilistic branch; [tokens[i] = "[MASK]"] writes the
    position the loop has just read. *)
Fixpoint random_word_loop (v : gmap string nat) (mask_prob : Q)
    (tokens : list string) (g : tape) : result (list string * list Z * tape) :=
  match tokens with
  | [] => Ok ([], [], g)
  | token :: rest =>
      let '(prob, g1) := random g in
      if Qltb prob mask_prob
      then
        label ← match v !! token with
                | Some i => Ok i
                | None => vocab_getitem v UNK
                end;
        '(toks, labels, g2) ← random_word_loop v mask_prob rest g1;
        Ok (MASK :: toks, Z.of_nat label :: labels, g2)
      else
        '(toks, labels, g2) ← random_word_loop v mask_prob rest g1;
        Ok (token :: toks, (-1) :: labels, g2)
  end.

Definition random_word (tokens : list string) (tk : Tokenizer)
    (mask_prob : Q) (g : tape) : result (list string * list Z * tape) :=
  if Qeq_bool mask_prob (-1)
  then
    '(mask_index, g') ← randint 0 (Z.of_nat (length tokens) - 1) g;
    let tokens := <[Z.to_nat mask_index := MASK]> tokens in
    output_label ← mapM (single_label (vocab tk) mask_index) (imap pair tokens);
    Ok (tokens, output_label, g')
  else random_word_loop (vocab tk) mask_prob tokens g.

(** ** convert_example_to_features: the feature encoder *)

Record InputExample : Type := mkInputExample {
  guid : nat;
  doc_tok : list string;
  ex_doc_id : nat;
  lm_labels : option (list Z)
}.

Record InputFeatures : Type := mkInputFeatures {
  input_ids : list Z;
  input_mask : list Z;
  doc_id : list Z;
  lm_label_ids : list Z
}.

(** The slice [l[:n]]; a negative [n] counts from the end. *)
Definition slice_to {A} (n : Z) (l : list A) : list A :=
  if n <? 0 then take (Z.to_nat (Z.of_nat (length l) + n)) l
  else take (Z.to_nat n) l.

Definition truncate (max_seq_length : Z) (f : InputFeatures) : InputFeatures :=
  if max_seq_length <? Z.of_nat (length (input_ids f))
  then {| input_ids := slice_to max_seq_length (input_ids f);
          input_mask := slice_to max_seq_length (input_mask f);
          doc_id := slice_to max_seq_length (doc_id f);
          lm_label_ids := slice_to max_seq_length (lm_label_ids f) |}
  else f.

Definition pad_step (f : InputFeatures) : InputFeatures :=
  {| input_ids := input_ids f ++ [0];
     input_mask := input_mask f ++ [0];
     doc_id := doc_id f ++ [0];
     lm_label_ids := lm_label_ids f ++ [-1] |}.

(** [while len(input_ids) < max_seq_length], at most [fuel] rounds. *)
Fixpoint pad_loop (fuel : nat) (max_seq_length : Z) (f : InputFeatures)
    : InputFeatures :=
  match fuel with
  | O => f
  | S fuel' =>
      if Z.of_nat (length (input_ids f)) <? max_seq_length
      then pad_loop fuel' max_seq_length (pad_step f)
      else f
  end.

(** Lines 192-225: everything after the call of [random_word]. *)
Definition encode_features (tk : Tokenizer) (doc_tokens : list string)
    (lm_label_ids : list Z) (example_doc_id : nat) (max_seq_length : Z)
    : result InputFeatures :=
  ids ← convert_tokens_to_ids tk doc_tokens;
  let input_ids := Z.of_nat <$> ids in
  let f := {| input_ids := input_ids;
              input_mask := replicate (length input_ids) 1;
              doc_id := replicate (length input_ids) (Z.of_nat example_doc_id);
              lm_label_ids := lm_label_ids |} in
  Ok (pad_loop (Z.to_nat max_seq_length) max_seq_length (truncate max_seq_length f)).

Definition convert_example_to_features (example : InputExample)
    (max_seq_length : Z) (tk : Tokenizer) (mask_prob : Q) (g : tape)
    : result (InputFeatures * tape) :=
  '(doc_tokens, lm_label_ids, g') ← random_word (doc_tok example) tk mask_prob g;
  f ← encode_features tk doc_tokens lm_label_ids (ex_doc_id example) max_seq_length;
  Ok (f, g').

(** ** MyDataset: the sample provider *)

Record MyDataset : Type := mkMyDataset {
  tokenizer : option Tokenizer;
  ds_vocab : option (gmap string nat);
  seq_len : Z;
  corpus_lines : nat;
  sample_counter : nat;
  all_docs : list string;
  num_docs : nat;
  ent_weights : option (list Q)
}.

Definition MyDataset_init (c : corpus) (seq_len : Z) : result MyDataset :=
  docs ← load_corpus c;
  Ok {| tokenizer := None;
        ds_vocab := None;
        seq_len := seq_len;
        corpus_lines := match c with
                        | CorpusPath lines => ls_corpus_lines (load_lines lines)
                        | CorpusList _ => 0%nat
                        end;
        sample_counter := 0;
        all_docs := docs;
        num_docs := length docs;
        ent_weights := None |}.

Definition build_vocab (ds : MyDataset) (tk : Tokenizer) : MyDataset :=
  {| tokenizer := Some tk;
     ds_vocab := Some (vocab tk);
     seq_len := seq_len ds;
     corpus_lines := corpus_lines ds;
     sample_counter := sample_counter ds;
     all_docs := all_docs ds;
     num_docs := num_docs ds;
     ent_weights := ent_weights ds |}.

Definition len (ds : MyDataset) : nat := num_docs ds.

(** Truth value of [vocab.get(x)]: [None] and [0] are false. *)
Definition truthy (o : option nat) : bool :=
  match o with
  | Some (S _) => true
  | _ => false
  end.

Definition keep_in_vocab (tk : Tokenizer) (doc : string) : list string :=
  filter (λ x, truthy (vocab tk !! x)) (tokenize doc).

Definition bump_counter (ds : MyDataset) : MyDataset :=
  {| tokenizer := tokenizer ds;
     ds_vocab := ds_vocab ds;
     seq_len := seq_len ds;
     corpus_lines := corpus_lines ds;
     sample_counter := S (sample_counter ds);
     all_docs := all_docs ds;
     num_docs := num_docs ds;
     ent_weights := ent_weights ds |}.

(** [__getitem__]; [mask_prob] is the module global that [main] sets, and
    [item] an index as the sampler supplies it, counted from 0. *)
Definition getitem (ds : MyDataset) (mask_prob : Q) (item : nat) (g : tape)
    : result (InputFeatures * MyDataset * tape) :=
  let cur_id := sample_counter ds in
  let ds' := bump_counter ds in
  tk ← match tokenizer ds with
       | Some tk => Ok tk
       | None => Err AttributeError
       end;
  doc ← match all_docs ds !! item with
        | Some d => Ok d
        | None => Err IndexError
        end;
  let doc_tok := keep_in_vocab tk doc in
  let cur_example := {| guid := cur_id; doc_tok := doc_tok;
                        ex_doc_id := item; lm_labels := None |} in
  '(cur_features, g') ← convert_example_to_features cur_example (seq_len ds) tk mask_prob g;
  Ok (cur_features, ds', g').

(** ** set_entities_weight: the entity-weight builder

    The entity records belong to the caller and hold references to set
    objects; the sets live in a store indexed by address, so that an
    in-place [update] is visible to every holder of the reference. *)

Definition heap : Type := gmap nat (gset string).

Record Entity : Type := mkEntity {
  FIELD : nat;
  TEC : nat
}.

Definition deref (h : heap) (l : nat) : gset string := default ∅ (h !! l).

(** One round of [for entity in entities]; the state is the store and
    the local set [ents]. *)
Definition collect_entity (st : heap * gset string) (entity : Entity)
    : heap * gset string :=
  let '(h, ents) := st in
  let field_set := FIELD entity in
  let tec_set := TEC entity in
  let h := <[field_set := deref h field_set ∪ deref h tec_set]> h in
  (h, ents ∪ set_map Str.lower (deref h field_set)).

(** One round of [for word_id in self.vocab.values()]. *)
Definition weigh (ent_ids : list nat) (weight : Q) (acc : result (list Q))
    (word_id : nat) : result (list Q) :=
  weights ← acc;
  if bool_decide (word_id ∈ ent_ids)
  then if (word_id <? length weights)%nat
       then Ok (<[word_id := weight]> weights)
       else Err IndexError
  else Ok weights.

Definition set_ent_weights (ds : MyDataset) (w : list Q) : MyDataset :=
  {| tokenizer := tokenizer ds;
     ds_vocab := ds_vocab ds;
     seq_len := seq_len ds;
     corpus_lines := corpus_lines ds;
     sample_counter := sample_counter ds;
     all_docs := all_docs ds;
     num_docs := num_docs ds;
     ent_weights := Some w |}.

Definition set_entities_weight (ds : MyDataset) (entities : option (list Entity))
    (weight : Q) (h : heap) : result (MyDataset * heap) :=
  '(ent_ids, h') ←
    match entities with
    | Some (e :: es) =>
        let '(h', ents) := foldl collect_entity (h, ∅) (e :: es) in
        tk ← match tokenizer ds with
             | Some tk => Ok tk
             | None => Err AttributeError
             end;
        ids ← convert_tokens_to_ids tk (tokenize (Str.join " " (elements ents)));
        Ok (ids, h')
    | _ => Ok ([], h)
    end;
  v ← match ds_vocab ds with
      | Some v => Ok v
      | None => Err TypeError
      end;
  weights ← foldl (weigh ent_ids weight) (Ok (replicate (size v) 1%Q)) (map_to_list v).*2;
  Ok (set_ent_weights ds weights, h').

(** ** main: the sweep over masking configurations *)

(** What an evaluation hook may return. *)
Inductive pyval : Type :=
  | PyNone
  | PyFloat (x : Q)
  | PyTuple (xs : list Q).

(** [f[1]] *)
Definition subscript1 (f : pyval) : result Q :=
  match f with
  | PyTuple xs =>
      match xs !! 1%nat with
      | Some x => Ok x
      | None => Err IndexError
      end
  | _ => Err TypeError
  end.

(** The builtin [max] of a list: the first of the greatest items. *)
Definition py_max (l : list Q) : result Q :=
  match l with
  | [] => Err (ValueError "max() arg is an empty sequence")
  | x :: xs => Ok (foldl (λ m y, if Qltb m y then y else m) x xs)
  end.

Record Args : Type := mkArgs {
  all_mask : bool;
  mask_prob : Q;
  gradient_accumulation_steps : Z;
  train_batch_size : Z;
  do_train : bool;
  max_seq_length : Z;
  num_train_epochs : Q;
  vocab_size : Z;
  do_lower_case : bool;
  weighted : bool;
  weight : Q
}.

(** The [dataset] argument: a path, or an object with [data] and
    [entities]. *)
Inductive dataset_arg : Type :=
  | DatasetPath (lines : list string)
  | DatasetObj (data : list string) (entities : option (list Entity)).

(** What [main] changes as it runs: [args.train_batch_size], the store of
    the caller's entity sets, [best_scores], and the epochs entered so far
    (masking configuration and epoch number). *)
Record MainState : Type := mkMainState {
  st_batch_size : Z;
  st_heap : heap;
  st_best_scores : list Q;
  st_epochs : list (Q * nat)
}.

(** State that survives an exception, as Python's does. *)
Definition St (A : Type) : Type := MainState → result A * MainState.

#[global] Instance St_ret : MRet St := λ A a st, (Ok a, st).
#[global] Instance St_bind : MBind St := λ A B f m st,
  match m st with
  | (Ok a, st') => f a st'
  | (Err e, st') => (Err e, st')
  end.

Definition raise {A} (e : PyError) : St A := λ st, (Err e, st).
Definition lift {A} (r : result A) : St A := λ st, (r, st).
Definition get_state : St MainState := λ st, (Ok st, st).

Definition set_batch_size (b : Z) : St unit := λ st,
  (Ok tt, {| st_batch_size := b; st_heap := st_heap st;
             st_best_scores := st_best_scores st; st_epochs := st_epochs st |}).
Definition set_heap (h : heap) : St unit := λ st,
  (Ok tt, {| st_batch_size := st_batch_size st; st_heap := h;
             st_best_scores := st_best_scores st; st_epochs := st_epochs st |}).
Definition append_best (x : Q) : St unit := λ st,
  (Ok tt, {| st_batch_size := st_batch_size st; st_heap := st_heap st;
             st_best_scores := st_best_scores st ++ [x]; st_epochs := st_epochs st |}).
Definition enter_epoch (p : Q) (k : nat) : St unit := λ st,
  (Ok tt, {| st_batch_size := st_batch_size st; st_heap := st_heap st;
             st_best_scores := st_best_scores st; st_epochs := st_epochs st ++ [(p, k)] |}).

(** [int(x)] of a float used as a [range] bound. *)
Definition int_range (x : Q) : nat := Z.to_nat (Qfloor x).

Section main.
(** One epoch of a configuration: the batches drawn through the data
    loader, the external model and optimiser, and the evaluation hook
    applied to the normalised document embeddings.  External code: any
    behaviour is allowed, including raising. *)
Variable epoch : Q → nat → MyDataset → result pyval.

Variable args : Args.
Variable dataset : dataset_arg.

Definition probs : list Q :=
  if all_mask args then [-1; 1 # 4; 1 # 2; 3 # 4; 1]%Q else [mask_prob args].

(** [for _ in trange(int(args.num_train_epochs))], collecting [scores]. *)
Fixpoint epochs_loop (p : Q) (ds : MyDataset) (k n : nat) (scores : list pyval)
    : St (list pyval) :=
  match n with
  | O => mret scores
  | S n' =>
      enter_epoch p k;;
      score ← lift (epoch p k ds);
      epochs_loop p ds (S k) n' (scores ++ [score])
  end.

(** The body of [for p in probs]. *)
Definition main_config (p : Q) : St unit :=
  (if gradient_accumulation_steps args <? 1
   then raise (ValueError "Invalid gradient_accumulation_steps parameter")
   else mret tt);;
  st ← get_state;
  let batch := st_batch_size st `div` gradient_accumulation_steps args in
  set_batch_size batch;;
  (if do_train args then mret tt
   else raise (ValueError "Training is currently the only implemented execution option."));;
  train_dataset ← lift (MyDataset_init
                          match dataset with
                          | DatasetPath lines => CorpusPath lines
                          | DatasetObj data _ => CorpusList data
                          end (max_seq_length args));
  (if batch =? 0 then raise ZeroDivisionError else mret tt);;
  tokenizer ← lift (Tokenizer_init (all_docs train_dataset) (vocab_size args)
                      (do_lower_case args));
  let train_dataset := build_vocab train_dataset tokenizer in
  entities ← (if weighted args
              then match dataset with
                   | DatasetPath _ => raise AttributeError
                   | DatasetObj _ entities => mret entities
                   end
              else mret None);
  '(train_dataset, h) ← lift (set_entities_weight train_dataset entities
                                (if weighted args then weight args else 2) (st_heap st));
  set_heap h;;
  scores ← epochs_loop p train_dataset 0 (int_range (num_train_epochs args)) [];
  firsts ← lift (mapM subscript1 scores);
  best ← lift (py_max firsts);
  append_best best.

Fixpoint sweep (ps : list Q) : St unit :=
  match ps with
  | [] => mret tt
  | p :: ps' => main_config p;; sweep ps'
  end.

(** The run of [main]: the outcome and the final state, whose
    [st_best_scores] is what is written to best_scores.txt. *)
Definition main (h : heap) : result unit * MainState :=
  sweep probs {| st_batch_size := train_batch_size args; st_heap := h;
                 st_best_scores := []; st_epochs := [] |}.
End main.

(** ** Vocabulary of the statements, and sample inputs *)

Definition alphabetic (t : string) : Prop :=
  Str.forallb Str.is_alphabetic t = true.

(** The ordinary tokens, numbered in order. *)
Definition ordinary (kept : list string) : gmap string nat :=
  list_to_map (zip kept (seq 0 (length kept))).

(** A tokenizer built over the ordinary tokens [kept]. *)
Record built_from (kept : list string) (tk : Tokenizer) : Prop := {
  bf_nonempty : kept ≠ [];
  bf_NoDup : NoDup kept;
  bf_alphabetic : ∀ t, t ∈ kept → alphabetic t;
  bf_vocab : vocab tk =
    <[MASK := S (length kept)]> (<[UNK := length kept]> (ordinary kept));
  bf_ids_to_tokens : ids_to_tokens tk = invert_vocab (vocab tk)
}.

Definition docs3_tokenizer : Tokenizer :=
  Eval vm_compute in
  match Tokenizer_init docs3 100 true with
  | Ok tk => tk
  | Err _ => mkTokenizer 0 true ∅ ∅
  end.

(** Head truncation to [n] followed by right padding with [x]. *)
Definition pad_to {A} (n : nat) (x : A) (l : list A) : list A :=
  take n l ++ replicate (n - length l) x.

Definition same_lengths (f : InputFeatures) : Prop :=
  length (input_mask f) = length (input_ids f) ∧
  length (doc_id f) = length (input_ids f) ∧
  length (lm_label_ids f) = length (input_ids f).

Definition padded (n : nat) (f : InputFeatures) : InputFeatures :=
  {| input_ids := pad_to n 0 (input_ids f);
     input_mask := pad_to n 0 (input_mask f);
     doc_id := pad_to n 0 (doc_id f);
     lm_label_ids := pad_to n (-1) (lm_label_ids f) |}.

(** Ids of tokens under a built tokenizer: the conversion never fails. *)
Definition id_of (tk : Tokenizer) (unk : nat) (t : string) : nat :=
  default unk (vocab tk !! t).

(** The index that single-token mode masks in a sequence of [k] tokens. *)
Definition mask_index_of (g : tape) (k : nat) : nat :=
  Z.to_nat (Z.of_N (draw g).1 `mod` Z.of_nat k).

(** Number of labels that are not the ignore value. *)
Definition count_labels (l : list Z) : nat := length (filter (λ x, x ≠ -1) l).

(** The corpus of the scenario, as lines of a file or as a list. *)
Definition scenario_lines : list string :=
  ["the cat sat"; EmptyString; "the dog ran"; EmptyString].

Definition scenario_dataset : result MyDataset :=
  ds ← MyDataset_init (CorpusPath scenario_lines) 5;
  tk ← Tokenizer_init (all_docs ds) 30000 true;
  Ok (build_vocab ds tk).

Definition scenario_tokenizer : Tokenizer :=
  Eval vm_compute in
  match Tokenizer_init docs2 30000 true with
  | Ok tk => tk
  | Err _ => mkTokenizer 0 true ∅ ∅
  end.

Definition scenario_ds : MyDataset :=
  build_vocab (mkMyDataset None None 5 2 0 docs2 2 None) scenario_tokenizer.

Definition docs3_dataset : MyDataset :=
  build_vocab (mkMyDataset None None 5 0 0 docs3 3 None) docs3_tokenizer.

(** Wherever the attention mask is 1 the token id is not 0. *)
Definition real_nonzero (f : InputFeatures) : Prop :=
  Forall2 (λ m x, m = 1 → x ≠ 0) (input_mask f) (input_ids f).

Definition entity_heap : heap :=
  {[ 0%nat := {[ "nlp" ]}; 1%nat := {[ "bert" ]} ]}.

Definition entity_heap_after : heap :=
  {[ 0%nat := {[ "nlp"; "bert" ]}; 1%nat := {[ "bert" ]} ]}.

(** [b] is a greatest element of [l]. *)
Definition is_max (b : Q) (l : list Q) : Prop :=
  b ∈ l ∧ ∀ x, x ∈ l → (x <= b)%Q.

(** The entry that a configuration contributes: the greatest of the
    components at index 1 of the values that its epochs returned, the
    epochs being run on a dataset that carries a freshly built tokenizer. *)
Definition best_of_config (epoch : Q → nat → MyDataset → result pyval)
    (args : Args) (p : Q) (best : Q) : Prop :=
  ∃ ds tk firsts,
    tokenizer ds = Some tk ∧
    Tokenizer_init (all_docs ds) (vocab_size args) (do_lower_case args) = Ok tk ∧
    length firsts = int_range (num_train_epochs args) ∧
    (∀ k x, firsts !! k = Some x →
            ∃ v, epoch p k ds = Ok v ∧ subscript1 v = Ok x) ∧
    is_max best firsts.

Definition sweep_args : Args :=
  {| all_mask := true; mask_prob := 1; gradient_accumulation_steps := 1;
     train_batch_size := 32; do_train := true; max_seq_length := 5;
     num_train_epochs := 2; vocab_size := 100; do_lower_case := true;
     weighted := false; weight := 1 |}.

(** A hook that returns a bare score, and one that returns a pair whose
    second component is the score. *)
Definition scalar_epoch (p : Q) (k : nat) (ds : MyDataset) : result pyval :=
  Ok (PyFloat (inject_Z (Z.of_nat k))).

Definition pair_epoch (p : Q) (k : nat) (ds : MyDataset) : result pyval :=
  Ok (PyTuple [0; inject_Z (Z.of_nat k)]%Q).

(** * Loader, masking, entities, sweep and callers: further vocabulary *)

(** Concatenation without a separator. *)
Definition concat_all (l : list string) : string :=
  foldr String.append EmptyString l.

(** A line that the loader takes for a document separator. *)
Definition blank (line : string) : Prop := Str.strip line = EmptyString.

(** The lines of a file made of blocks, each followed by a separator. *)
Definition file_of_blocks (blocks : list (list string * string)) : list string :=
  concat ((λ b, b.1 ++ [b.2]) <$> blocks).

(** A document of ASCII characters only, for which the model of the
    tokenizer is that of the library. *)
Definition ascii_text (s : string) : Prop :=
  Str.forallb (λ c, (Str.code c <? 128)%nat) s = true.

(** In how many documents a term occurs, as the vectorizer counts it. *)
Definition doc_freq (docs : list string) (t : string) : Z :=
  CountVectorizer.df (CountVectorizer.analyze tokenize <$> docs) t.

(** A token as it comes back from its id: itself, or the unknown-token. *)
Definition known_or_UNK (tk : Tokenizer) (t : string) : string :=
  match vocab tk !! t with
  | Some _ => t
  | None => UNK
  end.

(** Two documents around an empty one; the lines carry stray blanks. *)
Definition sample_blocks : list (list string * string) :=
  [(["the cat "; " sat"], EmptyString); ([], " "); (["the dog ran"], EmptyString)].

(** Whether probabilistic mode masks position [i]: its draw, the [i]-th of
    the tape, is below [mask_prob]. *)
Definition masked_at (p : Q) (g : tape) (i : nat) : bool :=
  Qltb (random (drop i g)).1 p.



(** A store with the single entity word "Cat", and its entity record. *)
Definition cat_heap : heap := {[ 0%nat := {[ "Cat" ]}; 1%nat := ∅ ]}.

(** The epochs of a configuration, as entries of the trace. *)
Definition epochs_of (n : nat) (p : Q) : list (Q * nat) :=
  (λ k, (p, k)) <$> seq 0 n.

(** doc_embed.py, [Args.__init__]: the arguments [get_MD2vec_embed] passes
    to [main] are [Args()], with [vocab_size] 28000. *)
Definition Args_init (vocab_size : Z) : Args :=
  {| all_mask := true; mask_prob := 1; gradient_accumulation_steps := 1;
     train_batch_size := 32; do_train := true; max_seq_length := 512;
     num_train_epochs := 10; vocab_size := vocab_size; do_lower_case := true;
     weighted := false; weight := 1 |}.

(** A hook without a return value, like the hook of run_text_cluster.py. *)
Definition none_epoch (p : Q) (k : nat) (ds : MyDataset) : result pyval :=
  Ok PyNone.

(** Variations of [sweep_args]. *)
Definition with_gas (gas : Z) (epochs : Q) (a : Args) : Args :=
  {| all_mask := all_mask a; mask_prob := mask_prob a;
     gradient_accumulation_steps := gas;
     train_batch_size := train_batch_size a; do_train := do_train a;
     max_seq_length := max_seq_length a; num_train_epochs := epochs;
     vocab_size := vocab_size a; do_lower_case := do_lower_case a;
     weighted := weighted a; weight := weight a |}.

Definition without_training (a : Args) : Args :=
  {| all_mask := all_mask a; mask_prob := mask_prob a;
     gradient_accumulation_steps := gradient_accumulation_steps a;
     train_batch_size := train_batch_size a; do_train := false;
     max_seq_length := max_seq_length a; num_train_epochs := num_train_epochs a;
     vocab_size := vocab_size a; do_lower_case := do_lower_case a;
     weighted := weighted a; weight := weight a |}.


(** ** run_text_cluster.py, [load_ai_data]: the documents

    [lines] is what [f.readlines()] returns: every line with its
    terminator. *)

Definition NL : string := String (ascii_of_nat 10) EmptyString.

Definition ai_line (st : list string * list string) (line : string)
    : list string * list string :=
  if bool_decide (line = NL) then (st.1 ++ [Str.join " " st.2], [])
  else (st.1, st.2 ++ [Str.strip line]).

Definition load_ai_docs (lines : list string) : list string :=
  (foldl ai_line ([], []) lines).1.

(** A file of blocks, each closed by a line that is only a newline. *)
Definition ai_file (blocks : list (list string)) : list string :=
  concat ((λ b, b ++ [NL]) <$> blocks).

(** ** run_text_cluster.py, [hook]: the co-occurrence counts of a cluster

    The part of the body of [for cluster in range(cluster_num)] that fills
    [fields], [tecs] and [co_occurence].  An entity record is given by the
    members of its FIELD set and of its TEC set, each in the order in
    which the set is iterated. *)

(** A value [[normal case, nums, id]] of [fields] or [tecs]. *)
Record Mention : Type := mkMention {
  normal : string;
  nums : nat;
  ment_id : nat
}.

(** One round of [for e in entity[...]]: the updated dictionary and the id
    appended, [d[e.lower()][-1]]. *)
Definition mention (d : gmap string Mention) (e : string)
    : gmap string Mention * nat :=
  match d !! Str.lower e with
  | None => (<[Str.lower e := mkMention e 1 (size d + 1)]> d, (size d + 1)%nat)
  | Some x =>
      (<[Str.lower e := mkMention (normal x) (nums x + 1) (ment_id x)]> d, ment_id x)
  end.

Definition mention_step (st : gmap string Mention * list nat) (e : string)
    : gmap string Mention * list nat :=
  let r := mention st.1 e in (r.1, st.2 ++ [r.2]).

(** [ids = []; for e in entity[...]: ...] *)
Definition mentions (d : gmap string Mention) (es : list string)
    : gmap string Mention * list nat :=
  foldl mention_step (d, []) es.

(** [co_occurence.setdefault((f, t), 1); co_occurence[(f, t)] += 1] *)
Definition count_pair (co : gmap (nat * nat) nat) (ft : nat * nat)
    : gmap (nat * nat) nat :=
  <[ft := (default 1%nat (co !! ft) + 1)%nat]> co.

Record ClusterState : Type := mkClusterState {
  fields : gmap string Mention;
  tecs : gmap string Mention;
  co_occurence : gmap (nat * nat) nat
}.

(** The body of [for entity in entities]. *)
Definition cluster_entity (st : ClusterState) (entity : list string * list string)
    : ClusterState :=
  let fs := mentions (fields st) entity.1 in
  let ts := mentions (tecs st) entity.2 in
  {| fields := fs.1;
     tecs := ts.1;
     co_occurence :=
       foldl (λ co f, foldl (λ co t, count_pair co (f, t)) co ts.2)
         (co_occurence st) fs.2 |}.

Definition cluster_counts (entities : list (list string * list string))
    : ClusterState :=
  foldl cluster_entity {| fields := ∅; tecs := ∅; co_occurence := ∅ |} entities.

(** The id a dictionary gives to an entity string. *)
Definition id_in (d : gmap string Mention) (e : string) : option nat :=
  ment_id <$> d !! Str.lower e.

(** How often the entities with ids [f] and [t] are members of the FIELD
    and of the TEC set of the same record. *)
Definition seen_together (dF dT : gmap string Mention)
    (entities : list (list string * list string)) (f t : nat) : nat :=
  sum_list ((λ en, length (filter (λ e, id_in dF e = Some f) en.1)
                   * length (filter (λ e, id_in dT e = Some t) en.2))%nat
            <$> entities).

(** The weight recorded for a pair seen [c] times. *)
Definition recorded (c : nat) : option nat :=
  match c with O => None | S _ => Some (c + 1)%nat end.

(** A dictionary extended without changing an id. *)
Definition ids_kept (d d' : gmap string Mention) : Prop :=
  ∀ e i, id_in d e = Some i → id_in d' e = Some i.

(** * Properties *)

(** ** The tokenizer and the strip function on examples *)

Example simple_preprocess_ex :
  simple_preprocess "The cat, a CAT_2 sat!" = ["the"; "cat"; "cat_"; "sat"].
Proof. reflexivity. Qed.

Example strip_ex : Str.strip "  the cat sat
" = "the cat sat".
Proof. reflexivity. Qed.

(** ** Tokens are alphabetic *)

Lemma forallb_append p (a b : string) :
  Str.forallb p (a +:+ b) = Str.forallb p a && Str.forallb p b.
Proof.
  induction a as [|c a IH]; simpl; [done|].
  rewrite IH. by destruct (p c).
Qed.

Lemma emit_alphabetic cur t : alphabetic cur → t ∈ emit cur → alphabetic t.
Proof.
  intros Hcur Ht. destruct cur; simpl in Ht.
  - by apply elem_of_nil in Ht.
  - by apply list_elem_of_singleton in Ht as ->.
Qed.

Lemma simple_tokenize_go_alphabetic s : ∀ cur t,
  alphabetic cur → t ∈ simple_tokenize_go cur s → alphabetic t.
Proof.
  induction s as [|c s IH]; intros cur t Hcur Ht; simpl in Ht.
  - eauto using emit_alphabetic.
  - destruct (Str.is_alphabetic c) eqn:Hc.
    + eapply IH; [|exact Ht].
      unfold alphabetic. rewrite forallb_append. simpl.
      rewrite Hcur, Hc. done.
    + apply elem_of_app in Ht as [Ht|Ht]; [eauto using emit_alphabetic|].
      eapply IH; [|exact Ht]. done.
Qed.

Lemma tokenize_alphabetic doc t : t ∈ tokenize doc → alphabetic t.
Proof.
  unfold tokenize, simple_preprocess. intros Ht.
  apply list_elem_of_filter in Ht as [_ Ht].
  by eapply (simple_tokenize_go_alphabetic _ EmptyString).
Qed.

Lemma alphabetic_not_UNK t : alphabetic t → t ≠ UNK.
Proof. intros H ->. discriminate H. Qed.

Lemma alphabetic_not_MASK t : alphabetic t → t ≠ MASK.
Proof. intros H ->. discriminate H. Qed.

(** ** The fitted vocabulary *)

Section fit_facts.
Variable tokenizer : string → list string.
Variables max_df min_df max_features : Z.

Let limit_features := CountVectorizer.limit_features max_df min_df max_features.

Lemma limit_features_subset docs_tok terms t :
  t ∈ limit_features docs_tok terms → t ∈ terms.
Proof.
  unfold limit_features, CountVectorizer.limit_features.
  intros Ht. case_match.
  - apply list_elem_of_filter in Ht as [_ Ht].
    by apply list_elem_of_filter in Ht as [_ Ht].
  - by apply list_elem_of_filter in Ht as [_ Ht].
Qed.

Lemma limit_features_NoDup docs_tok terms :
  NoDup terms → NoDup (limit_features docs_tok terms).
Proof.
  unfold limit_features, CountVectorizer.limit_features.
  intros Hnd. case_match; repeat apply NoDup_filter; done.
Qed.

Lemma limit_features_length docs_tok terms :
  NoDup terms → 0 ≤ max_features →
  Z.of_nat (length (limit_features docs_tok terms)) ≤ max_features.
Proof.
  unfold limit_features, CountVectorizer.limit_features.
  intros Hnd Hpos.
  set (in_range := filter _ terms).
  destruct (max_features <? Z.of_nat (length in_range)) eqn:Hlt; [|lia].
  set (top := CountVectorizer.top_features docs_tok (Z.to_nat max_features) in_range).
  assert (length top ≤ Z.to_nat max_features)%nat as Htop.
  { unfold top, CountVectorizer.top_features. rewrite length_take. lia. }
  assert (length (filter (λ t, t ∈ top) in_range) ≤ length top)%nat.
  { apply submseteq_length, NoDup_submseteq.
    - apply NoDup_filter, NoDup_filter, Hnd.
    - intros t Ht. by apply list_elem_of_filter in Ht as [Ht _]. }
  lia.
Qed.

(** What a successful [fit] returns. *)
Lemma fit_Ok docs v :
  CountVectorizer.fit tokenizer max_df min_df max_features docs = Ok v →
  ∃ kept : list string,
    v = list_to_map (zip kept (seq 0 (length kept))) ∧
    kept ≠ [] ∧ NoDup kept ∧
    Z.of_nat (length kept) ≤ max_features ∧
    ∀ t, t ∈ kept → ∃ doc, doc ∈ docs ∧ t ∈ tokenizer (Str.lower doc).
Proof.
  unfold CountVectorizer.fit. intros H.
  destruct (max_features <=? 0) eqn:Hmf; [done|].
  case_bool_decide as Hterms; [done|].
  destruct (max_df <? min_df); [done|].
  case_bool_decide as Hkept; [done|].
  injection H as <-.
  set (docs_tok := CountVectorizer.analyze tokenizer <$> docs) in *.
  set (terms := CountVectorizer.count_vocab docs_tok) in *.
  assert (NoDup (CountVectorizer.sort_features terms)) as Hnd.
  { unfold CountVectorizer.sort_features.
    rewrite merge_sort_Permutation. apply NoDup_remove_dups. }
  eexists. split; [reflexivity|]. split; [done|].
  split; [by apply limit_features_NoDup|].
  split; [apply limit_features_length; [done|lia]|].
  intros t Ht. apply limit_features_subset in Ht.
  unfold CountVectorizer.sort_features in Ht.
  rewrite merge_sort_Permutation in Ht.
  apply elem_of_remove_dups, list_elem_of_In, in_concat in Ht as (d & Hd & Ht).
  apply list_elem_of_In in Hd, Ht.
  apply list_elem_of_fmap in Hd as (doc & -> & Hdoc).
  by exists doc.
Qed.
End fit_facts.

(** ** The tokenizer's vocabulary *)

Lemma ordinary_fst (kept : list string) : (zip kept (seq 0 (length kept))).*1 = kept.
Proof. apply fst_zip. by rewrite length_seq. Qed.

Lemma ordinary_lookup kept t i :
  NoDup kept → ordinary kept !! t = Some i ↔ kept !! i = Some t.
Proof.
  intros Hnd. unfold ordinary.
  rewrite <- elem_of_list_to_map by (by rewrite ordinary_fst).
  rewrite list_elem_of_lookup. split.
  - intros [j Hj]. apply lookup_zip_with_Some in Hj as (x & y & [= <- <-] & Hx & Hy).
    apply lookup_seq in Hy as [-> _]. done.
  - intros Hi. exists i. apply lookup_zip_with_Some. exists t, i.
    split; [done|]. split; [done|].
    apply lookup_seq. split; [done|]. by eapply lookup_lt_Some.
Qed.

Lemma ordinary_size kept : NoDup kept → size (ordinary kept) = length kept.
Proof.
  intros Hnd. unfold ordinary.
  rewrite map_size_list_to_map by (by rewrite ordinary_fst).
  rewrite length_zip_with, length_seq. lia.
Qed.

Lemma ordinary_None kept t :
  NoDup kept → t ∉ kept → ordinary kept !! t = None.
Proof.
  intros Hnd Ht. destruct (ordinary kept !! t) as [i|] eqn:Hi; [|done].
  apply ordinary_lookup in Hi; [|done].
  destruct Ht. by eapply list_elem_of_lookup_2.
Qed.

Lemma Tokenizer_init_Ok docs V lc tk :
  Tokenizer_init docs V lc = Ok tk →
  ∃ kept, built_from kept tk ∧ Z.of_nat (length kept) ≤ V - 2 ∧
          ∀ t, t ∈ kept → ∃ doc, doc ∈ docs ∧ t ∈ tokenize (Str.lower doc).
Proof.
  unfold Tokenizer_init. intros H.
  destruct (CountVectorizer.fit _ _ _ _ _) as [v0|] eqn:Hfit; [|done].
  apply fit_Ok in Hfit as (kept & -> & Hne & Hnd & Hlen & Hsrc).
  fold (ordinary kept) in H. simpl in H.
  assert (∀ t, t ∈ kept → alphabetic t) as Halpha.
  { intros t Ht. destruct (Hsrc t Ht) as (doc & _ & Hdoc).
    by eapply tokenize_alphabetic. }
  assert (UNK ∉ kept) as HU.
  { intros HU. by eapply alphabetic_not_UNK; [apply Halpha|]. }
  rewrite map_size_insert_None in H by (by apply ordinary_None).
  rewrite ordinary_size in H by done.
  injection H as <-. exists kept. split; [|done].
  split; simpl; done.
Qed.

Lemma vocab_lookup kept tk t i :
  built_from kept tk →
  vocab tk !! t = Some i ↔
    kept !! i = Some t ∨ (t = UNK ∧ i = length kept) ∨
    (t = MASK ∧ i = S (length kept)).
Proof.
  intros [Hne Hnd Halpha Hv _]. rewrite Hv.
  rewrite lookup_insert. case_decide as HM.
  { subst t. split.
    - intros [= <-]. auto.
    - intros [Hk|[[? _]|[_ ->]]]; [|done..].
      apply list_elem_of_lookup_2, Halpha in Hk. by apply alphabetic_not_MASK in Hk. }
  rewrite lookup_insert. case_decide as HU.
  { subst t. split.
    - intros [= <-]. auto.
    - intros [Hk|[[_ ->]|[? _]]]; [|done..].
      apply list_elem_of_lookup_2, Halpha in Hk. by apply alphabetic_not_UNK in Hk. }
  rewrite ordinary_lookup by done. split; [auto|].
  intros [?|[[? _]|[? _]]]; done.
Qed.

Lemma vocab_UNK kept tk : built_from kept tk → vocab tk !! UNK = Some (length kept).
Proof. intros H. apply (vocab_lookup _ _ _ _ H). auto. Qed.

Lemma vocab_MASK kept tk : built_from kept tk → vocab tk !! MASK = Some (S (length kept)).
Proof. intros H. apply (vocab_lookup _ _ _ _ H). auto. Qed.

Lemma built_size kept tk : built_from kept tk → size (vocab tk) = S (S (length kept)).
Proof.
  intros [Hne Hnd Halpha Hv _]. rewrite Hv.
  assert (UNK ∉ kept) by (intros HU; by apply Halpha, alphabetic_not_UNK in HU).
  assert (MASK ∉ kept) by (intros HM; by apply Halpha, alphabetic_not_MASK in HM).
  rewrite map_size_insert_None.
  - rewrite map_size_insert_None by (by apply ordinary_None).
    by rewrite ordinary_size.
  - rewrite lookup_insert_ne by done. by apply ordinary_None.
Qed.

Lemma vocab_id_lt kept tk t i :
  built_from kept tk → vocab tk !! t = Some i → (i < S (S (length kept)))%nat.
Proof.
  intros H Hi. apply (vocab_lookup _ _ _ _ H) in Hi as [Hk|[[_ ->]|[_ ->]]]; [|lia..].
  apply lookup_lt_Some in Hk. lia.
Qed.

Lemma vocab_inj kept tk t1 t2 i :
  built_from kept tk → vocab tk !! t1 = Some i → vocab tk !! t2 = Some i → t1 = t2.
Proof.
  intros H H1 H2.
  apply (vocab_lookup _ _ _ _ H) in H1, H2.
  destruct H1 as [H1|[[-> ->]|[-> ->]]], H2 as [H2|[[-> E]|[-> E]]];
    try done; try congruence; try lia;
    try (apply lookup_lt_Some in H1; lia); try (apply lookup_lt_Some in H2; lia).
Qed.

(** ** The inverse dictionary *)

Lemma invert_fold (l : list (string * nat)) : ∀ (m0 : gmap nat string) i t,
  NoDup (l.*2) →
  (foldl (λ m p, <[p.2 := p.1]> m) m0 l) !! i = Some t ↔
    (t, i) ∈ l ∨ ((i ∉ l.*2) ∧ m0 !! i = Some t).
Proof.
  induction l as [|[t' i'] l IH]; intros m0 i t Hnd; simpl.
  - split; [intros; right; split; [apply not_elem_of_nil|done]|].
    intros [H|[_ H]]; [by apply elem_of_nil in H|done].
  - apply NoDup_cons in Hnd as [Hi' Hnd]. rewrite IH by done.
    rewrite elem_of_cons, not_elem_of_cons. simpl.
    rewrite lookup_insert. split.
    + intros [H|[Hni H]]; [auto|]. case_decide as E.
      * injection H as ->. subst. auto.
      * right. auto.
    + intros [[[= -> ->]|H]|[[Hne Hni] H]].
      * right. split; [done|]. by rewrite decide_True.
      * auto.
      * right. split; [done|]. by rewrite decide_False.
Qed.

Lemma invert_vocab_lookup (v : gmap string nat) i t :
  (∀ t1 t2 j, v !! t1 = Some j → v !! t2 = Some j → t1 = t2) →
  invert_vocab v !! i = Some t ↔ v !! t = Some i.
Proof.
  intros Hinj. unfold invert_vocab. rewrite invert_fold.
  - rewrite elem_of_map_to_list, lookup_empty. split; [|auto].
    by intros [?|[_ ?]].
  - apply NoDup_fmap_2_strong; [|apply NoDup_map_to_list].
    intros [t1 j1] [t2 j2] H1 H2; simpl; intros <-.
    apply elem_of_map_to_list in H1, H2. f_equal. eauto.
Qed.

Lemma ids_to_tokens_lookup kept tk i t :
  built_from kept tk → ids_to_tokens tk !! i = Some t ↔ vocab tk !! t = Some i.
Proof.
  intros H. rewrite (bf_ids_to_tokens _ _ H).
  apply invert_vocab_lookup. intros t1 t2 j. by apply vocab_inj with kept.
Qed.

(** ** Vocabulary construction *)

Lemma main_config_small_vocab epoch args dataset p st :
  vocab_size args < 2 →
  ∃ e, (main_config epoch args dataset p st).1 = Err e ∧
       st_epochs (main_config epoch args dataset p st).2 = st_epochs st ∧
       st_best_scores (main_config epoch args dataset p st).2 = st_best_scores st.
Proof.
  intros HV. unfold main_config, mbind, St_bind, mret, St_ret, raise, lift,
    get_state, set_batch_size; simpl.
  destruct (gradient_accumulation_steps args <? 1); [by eexists|].
  destruct (do_train args); [|by eexists].
  destruct (MyDataset_init _ _) as [ds|e]; [|by eexists].
  destruct (_ =? 0); [by eexists|].
  unfold Tokenizer_init, CountVectorizer.fit.
  replace (vocab_size args - 2 <=? 0) with true by lia.
  by eexists.
Qed.

(** C6: a vocabulary size below 2 makes the construction of the vocabulary
    fail with a configuration error (the ValueError raised for a
    max_features that is not positive), whatever the documents; and a run
    of [main] with such a size raises before it enters any training epoch
    and before it records any score. *)
Theorem small_vocab_size_is_rejected (V : Z) :
  V < 2 →
  (∀ docs lc, ∃ e, Tokenizer_init docs V lc = Err e ∧ is_ConfigurationError e = true) ∧
  (∀ epoch args dataset h,
     vocab_size args = V →
     ∃ e, (main epoch args dataset h).1 = Err e ∧
          st_epochs (main epoch args dataset h).2 = [] ∧
          st_best_scores (main epoch args dataset h).2 = []).
Proof.
  intros HV. split.
  - intros docs lc. unfold Tokenizer_init, CountVectorizer.fit.
    replace (V - 2 <=? 0) with true by lia. by eexists.
  - intros epoch args dataset h <-. unfold main.
    set (st0 := mkMainState _ _ _ _).
    assert (∃ p ps, probs args = p :: ps) as (p & ps & ->).
    { unfold probs. destruct (all_mask args); by eexists _, _. }
    destruct (main_config_small_vocab epoch args dataset p st0 HV)
      as (e & He & Hep & Hbest).
    exists e. simpl. unfold mbind, St_bind.
    destruct (main_config _ _ _ _ _) as [[?|e'] st1]; simpl in *; [done|].
    by injection He as ->.
Qed.

Lemma small_vocab_size_is_rejected_witness :
  1 < 2 ∧
  (∀ docs lc, ∃ e, Tokenizer_init docs 1 lc = Err e ∧ is_ConfigurationError e = true) ∧
  (∀ epoch args dataset h,
     vocab_size args = 1 →
     ∃ e, (main epoch args dataset h).1 = Err e ∧
          st_epochs (main epoch args dataset h).2 = [] ∧
          st_best_scores (main epoch args dataset h).2 = []).
Proof. split; [lia|]. apply (small_vocab_size_is_rejected 1). lia. Defined.

(** C7: in every vocabulary that the tokenizer constructs, the [n] ordinary
    tokens hold exactly the ids [0..n-1], the unknown-token holds [n] and
    the mask-token [n+1], the two highest of the [n+2] ids; [n] is at most
    [V-2], and when it is [V-2] the two ids are [V-2] and [V-1]. *)
Theorem special_tokens_hold_the_highest_ids docs V lc tk :
  Tokenizer_init docs V lc = Ok tk →
  ∃ n : nat,
    size (vocab tk) = S (S n) ∧
    vocab tk !! UNK = Some n ∧
    vocab tk !! MASK = Some (S n) ∧
    (∀ t i, vocab tk !! t = Some i → t ≠ UNK → t ≠ MASK → (i < n)%nat) ∧
    (∀ i, (i < n)%nat → ∃ t, t ≠ UNK ∧ t ≠ MASK ∧ vocab tk !! t = Some i) ∧
    (∀ t i, vocab tk !! t = Some i → (i ≤ S n)%nat) ∧
    Z.of_nat n ≤ V - 2 ∧
    (Z.of_nat n = V - 2 →
       Z.of_nat <$> vocab tk !! UNK = Some (V - 2) ∧
       Z.of_nat <$> vocab tk !! MASK = Some (V - 1)).
Proof.
  intros Hinit. apply Tokenizer_init_Ok in Hinit as (kept & Hb & Hlen & _).
  exists (length kept).
  split; [by apply built_size|].
  split; [by apply vocab_UNK|].
  split; [by apply vocab_MASK|].
  split.
  { intros t i Hi HU HM.
    apply (vocab_lookup _ _ _ _ Hb) in Hi as [Hk|[[? _]|[? _]]]; [|done..].
    by eapply lookup_lt_Some. }
  split.
  { intros i Hi. destruct (lookup_lt_is_Some_2 kept i Hi) as [t Ht].
    pose proof (bf_alphabetic _ _ Hb t (list_elem_of_lookup_2 _ _ _ Ht)) as Ha.
    exists t. split; [by apply alphabetic_not_UNK|].
    split; [by apply alphabetic_not_MASK|].
    apply (vocab_lookup _ _ _ _ Hb). auto. }
  split.
  { intros t i Hi. apply (vocab_id_lt _ _ _ _ Hb) in Hi. lia. }
  split; [done|].
  intros Hfull. rewrite (vocab_UNK _ _ Hb), (vocab_MASK _ _ Hb). simpl.
  split; f_equal; lia.
Qed.

Lemma special_tokens_hold_the_highest_ids_witness :
  Tokenizer_init docs3 100 true = Ok docs3_tokenizer ∧
  ∃ n : nat,
    size (vocab docs3_tokenizer) = S (S n) ∧
    vocab docs3_tokenizer !! UNK = Some n ∧
    vocab docs3_tokenizer !! MASK = Some (S n) ∧
    (∀ t i, vocab docs3_tokenizer !! t = Some i → t ≠ UNK → t ≠ MASK → (i < n)%nat) ∧
    (∀ i, (i < n)%nat → ∃ t, t ≠ UNK ∧ t ≠ MASK ∧ vocab docs3_tokenizer !! t = Some i) ∧
    (∀ t i, vocab docs3_tokenizer !! t = Some i → (i ≤ S n)%nat) ∧
    Z.of_nat n ≤ 100 - 2 ∧
    (Z.of_nat n = 100 - 2 →
       Z.of_nat <$> vocab docs3_tokenizer !! UNK = Some (100 - 2) ∧
       Z.of_nat <$> vocab docs3_tokenizer !! MASK = Some (100 - 1)).
Proof.
  split; [vm_compute; reflexivity|].
  apply (special_tokens_hold_the_highest_ids docs3 100 true docs3_tokenizer).
  vm_compute; reflexivity.
Defined.

(** ** Conversions between ids and tokens *)

Lemma id_has_token kept tk i :
  built_from kept tk → (i < size (vocab tk))%nat →
  ∃ t, ids_to_tokens tk !! i = Some t ∧ vocab tk !! t = Some i.
Proof.
  intros Hb Hi. rewrite (built_size _ _ Hb) in Hi.
  assert (∃ t, vocab tk !! t = Some i) as [t Ht].
  { destruct (decide (i < length kept)%nat) as [Hlt|Hge].
    - destruct (lookup_lt_is_Some_2 kept i Hlt) as [t Ht].
      exists t. apply (vocab_lookup _ _ _ _ Hb). auto.
    - destruct (decide (i = length kept)) as [->|Hne].
      + exists UNK. by apply vocab_UNK.
      + exists MASK. replace i with (S (length kept)) by lia. by apply vocab_MASK. }
  exists t. split; [|done]. by apply (ids_to_tokens_lookup _ _ _ _ Hb).
Qed.

(** C8: for a constructed tokenizer and ids all within its id range, the
    conversion to tokens succeeds and converting the tokens back returns
    the ids. *)
Theorem ids_to_tokens_to_ids docs V lc tk (ids : list nat) :
  Tokenizer_init docs V lc = Ok tk →
  Forall (λ i, (i < size (vocab tk))%nat) ids →
  ∃ tokens, convert_ids_to_tokens tk ids = Ok tokens ∧
            convert_tokens_to_ids tk tokens = Ok ids.
Proof.
  intros Hinit. apply Tokenizer_init_Ok in Hinit as (kept & Hb & _).
  induction 1 as [|i ids Hi _ (tokens & Hto & Hback)].
  - by exists [].
  - destruct (id_has_token _ _ _ Hb Hi) as (t & Hit & Hti).
    exists (t :: tokens). unfold convert_ids_to_tokens, convert_tokens_to_ids in *.
    simpl. rewrite Hit, Hti. simpl. rewrite Hto, Hback. done.
Qed.

Lemma ids_to_tokens_to_ids_witness :
  Tokenizer_init docs3 100 true = Ok docs3_tokenizer ∧
  Forall (λ i, (i < size (vocab docs3_tokenizer))%nat) [4; 0; 3; 1; 1; 2]%nat ∧
  ∃ tokens, convert_ids_to_tokens docs3_tokenizer [4; 0; 3; 1; 1; 2]%nat = Ok tokens ∧
            convert_tokens_to_ids docs3_tokenizer tokens = Ok [4; 0; 3; 1; 1; 2]%nat.
Proof.
  assert (Tokenizer_init docs3 100 true = Ok docs3_tokenizer) as Hinit
    by (vm_compute; reflexivity).
  assert (size (vocab docs3_tokenizer) = 5%nat) as Hsize by (vm_compute; reflexivity).
  assert (Forall (λ i, (i < size (vocab docs3_tokenizer))%nat) [4; 0; 3; 1; 1; 2]%nat) as Hids.
  { rewrite Hsize. repeat (apply Forall_cons; split; [lia|]). apply Forall_nil_2. }
  split; [exact Hinit|]. split; [exact Hids|].
  exact (ids_to_tokens_to_ids docs3 100 true docs3_tokenizer _ Hinit Hids).
Defined.

(** ** The feature encoder *)

Lemma length_pad_to {A} n (x : A) l : length (pad_to n x l) = n.
Proof. unfold pad_to. rewrite length_app, length_take, length_replicate. lia. Qed.

Lemma pad_to_lookup_lt {A} n (x : A) l i :
  (i < n)%nat → (i < length l)%nat → pad_to n x l !! i = l !! i.
Proof.
  intros Hn Hl. unfold pad_to.
  rewrite lookup_app_l by (rewrite length_take; lia).
  by apply lookup_take_lt.
Qed.

Lemma pad_to_lookup_ge {A} n (x : A) l i :
  (i < n)%nat → (length l ≤ i)%nat → pad_to n x l !! i = Some x.
Proof.
  intros Hn Hl. unfold pad_to.
  rewrite lookup_app_r by (rewrite length_take; lia).
  apply lookup_replicate_2. rewrite length_take. lia.
Qed.

Lemma pad_loop_spec L : ∀ fuel f,
  (Z.to_nat L - length (input_ids f) ≤ fuel)%nat →
  pad_loop fuel L f =
    {| input_ids := input_ids f ++ replicate (Z.to_nat L - length (input_ids f)) 0;
       input_mask := input_mask f ++ replicate (Z.to_nat L - length (input_ids f)) 0;
       doc_id := doc_id f ++ replicate (Z.to_nat L - length (input_ids f)) 0;
       lm_label_ids := lm_label_ids f ++ replicate (Z.to_nat L - length (input_ids f)) (-1) |}.
Proof.
  induction fuel as [|fuel IH]; intros f Hfuel; simpl.
  - replace (Z.to_nat L - length (input_ids f))%nat with 0%nat by lia.
    simpl. rewrite !app_nil_r. by destruct f.
  - destruct (Z.of_nat (length (input_ids f)) <? L) eqn:Hlt.
    + rewrite IH by (simpl; rewrite length_app; simpl; lia).
      simpl. rewrite length_app. simpl.
      replace (Z.to_nat L - length (input_ids f))%nat
        with (S (Z.to_nat L - (length (input_ids f) + 1)))%nat by lia.
      simpl. rewrite <- !app_assoc. done.
    + replace (Z.to_nat L - length (input_ids f))%nat with 0%nat by lia.
      simpl. rewrite !app_nil_r. by destruct f.
Qed.

Lemma truncate_spec L f :
  0 ≤ L → same_lengths f →
  truncate L f =
    {| input_ids := take (Z.to_nat L) (input_ids f);
       input_mask := take (Z.to_nat L) (input_mask f);
       doc_id := take (Z.to_nat L) (doc_id f);
       lm_label_ids := take (Z.to_nat L) (lm_label_ids f) |}.
Proof.
  intros HL (Hm & Hd & Hl). unfold truncate, slice_to.
  replace (L <? 0) with false by lia.
  destruct (L <? Z.of_nat (length (input_ids f))) eqn:Hlt; [done|].
  rewrite !take_ge by lia. by destruct f.
Qed.

Lemma encode_loop_spec L f :
  0 ≤ L → same_lengths f →
  pad_loop (Z.to_nat L) L (truncate L f) = padded (Z.to_nat L) f.
Proof.
  intros HL Hsame. rewrite truncate_spec by done.
  rewrite pad_loop_spec by (simpl; lia). simpl.
  destruct Hsame as (Hm & Hd & Hl).
  unfold padded, pad_to. rewrite !length_take, Hm, Hd, Hl.
  replace (Z.to_nat L - Z.to_nat L `min` length (input_ids f))%nat
    with (Z.to_nat L - length (input_ids f))%nat by lia.
  done.
Qed.

Lemma convert_tokens_to_ids_built kept tk tokens :
  built_from kept tk →
  convert_tokens_to_ids tk tokens = Ok (id_of tk (length kept) <$> tokens).
Proof.
  intros Hb. unfold convert_tokens_to_ids.
  induction tokens as [|t tokens IH]; [done|].
  simpl. rewrite IH. unfold id_of at 2.
  destruct (vocab tk !! t); simpl; [done|].
  unfold vocab_getitem. by rewrite (vocab_UNK _ _ Hb).
Qed.

Lemma encode_features_built kept tk tokens labels d L :
  built_from kept tk → 0 ≤ L → length labels = length tokens →
  encode_features tk tokens labels d L =
    Ok (padded (Z.to_nat L)
          {| input_ids := Z.of_nat <$> (id_of tk (length kept) <$> tokens);
             input_mask := replicate (length tokens) 1;
             doc_id := replicate (length tokens) (Z.of_nat d);
             lm_label_ids := labels |}).
Proof.
  intros Hb HL Hlen. unfold encode_features.
  rewrite (convert_tokens_to_ids_built _ _ _ Hb). simpl.
  rewrite !length_fmap. rewrite encode_loop_spec; [done..|].
  unfold same_lengths; simpl. rewrite !length_fmap, !length_replicate. done.
Qed.

(** C3: for a constructed tokenizer, a non-negative max_seq_length and a
    label list parallel to the masked token list, the encoder returns a
    Feature whose four sequences have length max_seq_length; every position
    from the number of real tokens up to max_seq_length holds
    input_ids 0, input_mask 0, doc_id 0 and label -1; and within the output
    a label differs from -1 exactly at the positions that are inside the
    given sequence and carry a label other than -1 there, that is, at the
    masked positions. *)
Theorem encoded_feature_shape docs V lc tk tokens labels (d : nat) (L : Z) :
  Tokenizer_init docs V lc = Ok tk →
  0 ≤ L →
  length labels = length tokens →
  ∃ f, encode_features tk tokens labels d L = Ok f ∧
    (Z.of_nat (length (input_ids f)) = L ∧ Z.of_nat (length (input_mask f)) = L ∧
     Z.of_nat (length (doc_id f)) = L ∧ Z.of_nat (length (lm_label_ids f)) = L) ∧
    (∀ i, (length tokens ≤ i)%nat → Z.of_nat i < L →
       input_ids f !! i = Some 0 ∧ input_mask f !! i = Some 0 ∧
       doc_id f !! i = Some 0 ∧ lm_label_ids f !! i = Some (-1)) ∧
    (∀ i, Z.of_nat i < L →
       lm_label_ids f !! i ≠ Some (-1) ↔
       (i < length tokens)%nat ∧ ∃ l, labels !! i = Some l ∧ l ≠ -1).
Proof.
  intros Hinit HL Hlen.
  apply Tokenizer_init_Ok in Hinit as (kept & Hb & _).
  eexists. split; [by apply (encode_features_built _ _ _ _ _ _ Hb)|].
  simpl. rewrite !length_pad_to.
  split; [lia|]. split.
  - intros i Hi HiL.
    rewrite !pad_to_lookup_ge by (rewrite ?length_fmap, ?length_replicate; lia).
    done.
  - intros i HiL. destruct (decide (i < length tokens)%nat) as [Hlt|Hge].
    + rewrite pad_to_lookup_lt by lia.
      destruct (lookup_lt_is_Some_2 labels i ltac:(lia)) as [l Hl].
      rewrite Hl. split.
      * intros Hne. split; [done|]. exists l. split; [done|]. congruence.
      * intros [_ (l' & [= <-] & Hne)]. congruence.
    + rewrite pad_to_lookup_ge by lia. split; [done|]. intros [? _]. lia.
Qed.

Lemma encoded_feature_shape_witness :
  Tokenizer_init docs3 100 true = Ok docs3_tokenizer ∧
  0 ≤ 5 ∧
  length [-1; 4; -1] = length ["dog"; MASK; "cat"] ∧
  ∃ f, encode_features docs3_tokenizer ["dog"; MASK; "cat"] [-1; 4; -1] 7 5 = Ok f ∧
    (Z.of_nat (length (input_ids f)) = 5 ∧ Z.of_nat (length (input_mask f)) = 5 ∧
     Z.of_nat (length (doc_id f)) = 5 ∧ Z.of_nat (length (lm_label_ids f)) = 5) ∧
    (∀ i, (length ["dog"; MASK; "cat"] ≤ i)%nat → Z.of_nat i < 5 →
       input_ids f !! i = Some 0 ∧ input_mask f !! i = Some 0 ∧
       doc_id f !! i = Some 0 ∧ lm_label_ids f !! i = Some (-1)) ∧
    (∀ i, Z.of_nat i < 5 →
       lm_label_ids f !! i ≠ Some (-1) ↔
       (i < length ["dog"; MASK; "cat"])%nat ∧
       ∃ l, [-1; 4; -1] !! i = Some l ∧ l ≠ -1).
Proof.
  split; [vm_compute; reflexivity|]. split; [lia|]. split; [reflexivity|].
  apply (encoded_feature_shape docs3 100 true docs3_tokenizer).
  - vm_compute; reflexivity.
  - lia.
  - reflexivity.
Defined.

(** ** The masking policy *)

Lemma mapM_Ok_length {A B} (f : A → result B) l k :
  mapM f l = Ok k → length k = length l.
Proof.
  revert k. induction l as [|x l IH]; intros k; simpl.
  - by intros [= <-].
  - destruct (f x) as [y|]; simpl; [|done].
    destruct (mapM f l) as [k'|]; simpl; [|done].
    intros [= <-]. simpl. by rewrite (IH k').
Qed.

Lemma mask_index_of_lt g k : (0 < k)%nat → (mask_index_of g k < k)%nat.
Proof.
  intros Hk. unfold mask_index_of.
  pose proof (Z.mod_pos_bound (Z.of_N (draw g).1) (Z.of_nat k)). lia.
Qed.

Lemma randint_range g k :
  (0 < k)%nat →
  randint 0 (Z.of_nat k - 1) g = Ok (Z.of_nat (mask_index_of g k), (draw g).2).
Proof.
  intros Hk. unfold randint, mask_index_of.
  replace (Z.of_nat k - 1 <? 0) with false by lia.
  destruct (draw g) as [n g']. simpl.
  replace (Z.of_nat k - 1 - 0 + 1) with (Z.of_nat k) by lia.
  pose proof (Z.mod_pos_bound (Z.of_N n) (Z.of_nat k)).
  do 2 f_equal. lia.
Qed.

Lemma single_labels v (mi m : nat) : ∀ (tokens : list string) (f : nat → nat),
  (∀ i t, tokens !! i = Some t → f i = mi → v !! t = Some m) →
  mapM (single_label v (Z.of_nat mi)) (imap (λ i t, (f i, t)) tokens) =
    Ok (imap (λ i _, if decide (f i = mi) then Z.of_nat m else -1) tokens).
Proof.
  induction tokens as [|t tokens IH]; intros f Hf; [done|].
  simpl. cbv beta delta [compose].
  rewrite (IH (λ i, f (S i))) by (intros i t'; apply (Hf (S i))).
  unfold single_label at 1. simpl.
  case_bool_decide as E; case_decide as E'; try lia; simpl.
  - unfold vocab_getitem. rewrite (Hf 0%nat t) by done. done.
  - done.
Qed.

Lemma imap_insert_replicate {A} (x y : A) (mi : nat) (tokens : list string) :
  imap (λ i _, if decide (i = mi) then x else y) tokens =
    <[mi := x]> (replicate (length tokens) y).
Proof.
  apply list_eq. intros i. rewrite list_lookup_imap.
  destruct (decide (i < length tokens)%nat) as [Hlt|Hge].
  - destruct (lookup_lt_is_Some_2 tokens i Hlt) as [t ->]. simpl.
    case_decide as E.
    + subst. by rewrite list_lookup_insert_eq by (by rewrite length_replicate).
    + rewrite list_lookup_insert_ne by done.
      symmetry. by apply lookup_replicate_2.
  - rewrite lookup_ge_None_2 by lia. simpl. symmetry.
    apply lookup_ge_None_2. rewrite length_insert, length_replicate. lia.
Qed.

(** Single-token mode, on a non-empty sequence: the token at the drawn
    index is overwritten first, so the label computed there is the id of
    the mask-token. *)
Lemma random_word_single kept tk tokens p g :
  built_from kept tk → Qeq_bool p (-1) = true → tokens ≠ [] →
  random_word tokens tk p g =
    Ok (<[mask_index_of g (length tokens) := MASK]> tokens,
        <[mask_index_of g (length tokens) := Z.of_nat (S (length kept))]>
          (replicate (length tokens) (-1)),
        (draw g).2).
Proof.
  intros Hb Hp Hne. unfold random_word. rewrite Hp.
  assert (0 < length tokens)%nat as Hk by (destruct tokens; [done|simpl; lia]).
  rewrite randint_range by done. simpl.
  rewrite Nat2Z.id.
  set (mi := mask_index_of g (length tokens)).
  pose proof (mask_index_of_lt g _ Hk) as Hmi. fold mi in Hmi.
  rewrite (single_labels (vocab tk) mi (S (length kept)) _ (λ i, i)).
  - simpl. rewrite imap_insert_replicate, length_insert. done.
  - intros i t Hi ->. rewrite list_lookup_insert_eq in Hi by done.
    injection Hi as <-. by apply vocab_MASK.
Qed.

Lemma random_word_single_empty tk p g :
  Qeq_bool p (-1) = true →
  ∃ msg, random_word [] tk p g = Err (ValueError msg).
Proof. intros Hp. unfold random_word. rewrite Hp. by eexists. Qed.

Lemma random_word_loop_out v p : ∀ tokens g toks labels g',
  random_word_loop v p tokens g = Ok (toks, labels, g') →
  length toks = length tokens ∧ length labels = length tokens ∧
  Forall2 (λ t' t, t' = MASK ∨ t' = t) toks tokens.
Proof.
  induction tokens as [|t tokens IH]; intros g toks labels g'; simpl.
  - intros [= <- <- <-]. by repeat split.
  - destruct (random g) as [prob g1].
    destruct (Qltb prob p).
    + destruct (match v !! t with Some i => Ok i | None => vocab_getitem v UNK end);
        simpl; [|done].
      destruct (random_word_loop v p tokens g1) as [[[toks1 labels1] g2]|] eqn:E;
        simpl; [|done].
      intros [= <- <- <-]. destruct (IH _ _ _ _ E) as (? & ? & ?).
      simpl. repeat split; [lia|lia|]. constructor; auto.
    + destruct (random_word_loop v p tokens g1) as [[[toks1 labels1] g2]|] eqn:E;
        simpl; [|done].
      intros [= <- <- <-]. destruct (IH _ _ _ _ E) as (? & ? & ?).
      simpl. repeat split; [lia|lia|]. constructor; auto.
Qed.

(** Both modes: the outputs are parallel to the input, and a token is
    either kept or replaced by the mask-token. *)
Lemma random_word_out tk tokens p g toks labels g' :
  random_word tokens tk p g = Ok (toks, labels, g') →
  length toks = length tokens ∧ length labels = length tokens ∧
  Forall2 (λ t' t, t' = MASK ∨ t' = t) toks tokens.
Proof.
  unfold random_word. destruct (Qeq_bool p (-1)); [|apply random_word_loop_out].
  destruct (randint _ _ _) as [[mi g1]|]; simpl; [|done].
  destruct (mapM _ _) as [out|] eqn:E; simpl; [|done].
  intros [= <- <- <-]. apply mapM_Ok_length in E.
  rewrite length_imap in E. rewrite length_insert in *.
  repeat split; [done|].
  apply Forall2_same_length_lookup. split; [by rewrite length_insert|].
  intros i t' t Ht' Ht.
  destruct (decide (Z.to_nat mi = i)) as [<-|Hne].
  - rewrite list_lookup_insert_eq in Ht' by (by eapply lookup_lt_Some). left. congruence.
  - rewrite list_lookup_insert_ne in Ht' by done. right. congruence.
Qed.

(** C1, at a concrete input: with "cat" of id 1 masked, single-token mode
    labels the position with 4, the id of the mask-token, where the
    original token's id is 1; the index drawn, the replacement by the
    mask-token and the -1 elsewhere are as described. *)
Theorem single_token_label_is_mask_id :
  vocab docs3_tokenizer !! "cat" = Some 1%nat ∧
  vocab docs3_tokenizer !! MASK = Some 4%nat ∧
  random_word ["dog"; "cat"] docs3_tokenizer (-1) [1%N] =
    Ok (["dog"; MASK], [-1; 4], []).
Proof. vm_compute. done. Qed.

(** ** The sample provider *)

Lemma getitem_Ok ds p item g f ds' g' :
  getitem ds p item g = Ok (f, ds', g') →
  ∃ tk doc toks labels,
    tokenizer ds = Some tk ∧ all_docs ds !! item = Some doc ∧
    random_word (keep_in_vocab tk doc) tk p g = Ok (toks, labels, g') ∧
    encode_features tk toks labels item (seq_len ds) = Ok f ∧
    ds' = bump_counter ds.
Proof.
  unfold getitem, convert_example_to_features.
  destruct (tokenizer ds) as [tk|]; simpl; [|done].
  destruct (all_docs ds !! item) as [doc|]; simpl; [|done].
  destruct (random_word _ _ _ _) as [[[toks labels] g1]|] eqn:Hrw; simpl; [|done].
  destruct (encode_features _ _ _ _ _) as [f1|] eqn:Henc; simpl; [|done].
  intros [= <- <- <-]. by exists tk, doc, toks, labels.
Qed.

Lemma keep_in_vocab_spec tk doc t :
  t ∈ keep_in_vocab tk doc ↔
  t ∈ tokenize doc ∧ ∃ i, vocab tk !! t = Some i ∧ i ≠ 0%nat.
Proof.
  unfold keep_in_vocab. rewrite list_elem_of_filter. split.
  - intros [Ht Hin]. split; [done|].
    destruct (vocab tk !! t) as [[|i]|]; simpl in Ht; try done.
    by exists (S i).
  - intros [Hin (i & -> & Hi)]. split; [|done]. by destruct i.
Qed.

Lemma count_labels_app l1 l2 :
  count_labels (l1 ++ l2) = (count_labels l1 + count_labels l2)%nat.
Proof. unfold count_labels. by rewrite filter_app, length_app. Qed.

Lemma count_labels_replicate n : count_labels (replicate n (-1)) = 0%nat.
Proof.
  unfold count_labels. induction n as [|n IH]; [done|].
  simpl. by rewrite filter_cons_False by (intros H; by apply H).
Qed.

Lemma count_labels_insert (mi k : nat) (x : Z) :
  (mi < k)%nat → x ≠ -1 →
  count_labels (<[mi := x]> (replicate k (-1))) = 1%nat.
Proof.
  intros Hmi Hx.
  rewrite insert_take_drop by (by rewrite length_replicate).
  rewrite take_replicate, drop_replicate.
  rewrite count_labels_app, count_labels_replicate.
  unfold count_labels at 1. rewrite filter_cons_True by done.
  simpl. fold (count_labels (replicate (k - S mi) (-1))).
  by rewrite count_labels_replicate.
Qed.

(** C2, as stated, fails: in the scenario the only word of the vocabulary
    is "the", whose id is 0; every document is emptied by the filter and
    single-token masking raises on the empty sequence, so no Feature with
    input_mask [1,1,1,0,0] is produced. *)
Lemma scenario_get_produces_no_feature :
  scenario_dataset = Ok scenario_ds ∧
  vocab scenario_tokenizer !! "the" = Some 0%nat ∧
  size (vocab scenario_tokenizer) = 3%nat ∧
  getitem scenario_ds (-1) 0 [] = Err (ValueError "empty range for randrange()") ∧
  getitem scenario_ds (-1) 1 [] = Err (ValueError "empty range for randrange()") ∧
  ¬ ∃ g f ds' g', getitem scenario_ds (-1) 0 g = Ok (f, ds', g') ∧
                  input_mask f = [1; 1; 1; 0; 0].
Proof.
  split; [vm_compute; reflexivity|].
  split; [vm_compute; reflexivity|]. split; [vm_compute; reflexivity|].
  split; [vm_compute; reflexivity|]. split; [vm_compute; reflexivity|].
  intros (g & f & ds' & g' & H & _).
  apply getitem_Ok in H as (tk & doc & toks & labels & Htk & Hdoc & Hrw & _).
  injection Htk as <-. injection Hdoc as <-.
  vm_compute in Hrw. discriminate Hrw.
Qed.

Lemma fit_unlimited tokenizer max_df min_df mf docs (in_range : list string) :
  0 < mf → min_df ≤ max_df →
  filter (λ t, CountVectorizer.df (CountVectorizer.analyze tokenizer <$> docs) t ≤ max_df ∧
               min_df ≤ CountVectorizer.df (CountVectorizer.analyze tokenizer <$> docs) t)
    (CountVectorizer.sort_features
       (CountVectorizer.count_vocab (CountVectorizer.analyze tokenizer <$> docs)))
    = in_range →
  in_range ≠ [] → Z.of_nat (length in_range) ≤ mf →
  CountVectorizer.fit tokenizer max_df min_df mf docs = Ok (ordinary in_range).
Proof.
  intros Hmf Hdf Hfilter Hne Hlen. unfold CountVectorizer.fit.
  replace (mf <=? 0) with false by lia.
  case_bool_decide as Hterms.
  { rewrite Hterms in Hfilter. by vm_compute in Hfilter. }
  replace (max_df <? min_df) with false by lia.
  unfold CountVectorizer.limit_features. rewrite Hfilter.
  replace (mf <? Z.of_nat (length in_range)) with false by lia.
  by rewrite bool_decide_eq_false_2.
Qed.

Lemma scenario_vocab docs V lc tk :
  docs = docs2 ∨ docs = scenario_lines →
  Tokenizer_init docs V lc = Ok tk → vocab tk = vocab scenario_tokenizer.
Proof.
  intros Hdocs. unfold Tokenizer_init.
  destruct (decide (V - 2 ≤ 0)) as [Hle|Hgt].
  { unfold CountVectorizer.fit. replace (V - 2 <=? 0) with true by lia. done. }
  rewrite (fit_unlimited _ _ _ _ _ ["the"]); [|lia|lia| |done|simpl; lia].
  - simpl. intros [= <-]. simpl. vm_compute. reflexivity.
  - destruct Hdocs as [->| ->]; vm_compute; reflexivity.
Qed.

(** C2, amended: with max_seq_length 5 and single-token masking, a Feature
    that the sample provider produces for a document of which [k] tokens
    pass the vocabulary filter has [k >= 1], input_mask made of min(k,5)
    ones followed by zeros, and, when [k <= 5], exactly one label that is
    not -1, whatever index was drawn; in the scenario corpus the words cat,
    sat, dog and ran are not in the vocabulary (each occurs in a single
    document), so at most one token of a document passes the filter. *)
Theorem single_token_feature_counts_kept_tokens :
  (∀ docs V lc tk ds p item g f ds' g',
     Tokenizer_init docs V lc = Ok tk →
     tokenizer ds = Some tk → seq_len ds = 5 → Qeq_bool p (-1) = true →
     getitem ds p item g = Ok (f, ds', g') →
     ∃ doc k,
       all_docs ds !! item = Some doc ∧ k = length (keep_in_vocab tk doc) ∧
       (1 ≤ k)%nat ∧
       input_mask f = replicate (k `min` 5) 1 ++ replicate (5 - k) 0 ∧
       ((k ≤ 5)%nat → count_labels (lm_label_ids f) = 1%nat)) ∧
  (∀ c V lc docs tk,
     c = CorpusPath scenario_lines ∨ c = CorpusList scenario_lines →
     load_corpus c = Ok docs →
     Tokenizer_init docs V lc = Ok tk →
     Forall (λ w, vocab tk !! w = None) ["cat"; "sat"; "dog"; "ran"] ∧
     Forall (λ doc, (length (keep_in_vocab tk doc) ≤ 1)%nat) docs).
Proof.
  split.
  - intros docs V lc tk ds p item g f ds' g' Hinit Htk HL Hp Hget.
    apply Tokenizer_init_Ok in Hinit as (kept & Hb & _).
    apply getitem_Ok in Hget as (tk' & doc & toks & labels & Htk' & Hdoc & Hrw & Henc & _).
    assert (tk' = tk) as -> by congruence.
    exists doc, (length (keep_in_vocab tk doc)).
    split; [done|]. split; [done|].
    destruct (keep_in_vocab tk doc) as [|t0 kept_toks] eqn:Hkeep.
    { destruct (random_word_single_empty tk p g Hp) as [msg Hmsg]. congruence. }
    rewrite <- Hkeep in *.
    assert (keep_in_vocab tk doc ≠ []) as Hne by (rewrite Hkeep; done).
    rewrite (random_word_single _ _ _ _ _ Hb Hp Hne) in Hrw.
    injection Hrw as <- <- <-.
    set (k := length (keep_in_vocab tk doc)) in *.
    assert (0 < k)%nat as Hk by (unfold k; rewrite Hkeep; simpl; lia).
    pose proof (mask_index_of_lt g k Hk) as Hmi.
    rewrite HL in Henc.
    rewrite (encode_features_built _ _ _ _ _ _ Hb) in Henc;
      [|lia|by rewrite !length_insert, length_replicate].
    injection Henc as <-. simpl. rewrite length_insert. fold k.
    split; [lia|]. split.
    + unfold pad_to. rewrite take_replicate, length_replicate.
      f_equal. f_equal. lia.
    + intros Hk5. unfold pad_to.
      rewrite take_ge by (rewrite length_insert, length_replicate; lia).
      rewrite count_labels_app, count_labels_replicate.
      rewrite count_labels_insert by lia. done.
  - intros c V lc docs tk Hc Hload Hinit.
    assert (docs = docs2 ∨ docs = scenario_lines) as Hdocs.
    { destruct Hc as [->| ->]; vm_compute in Hload; injection Hload as <-; auto. }
    pose proof (scenario_vocab _ _ _ _ Hdocs Hinit) as Hv.
    split.
    + rewrite Hv. repeat (apply Forall_cons; split; [vm_compute; reflexivity|]).
      apply Forall_nil_2.
    + unfold keep_in_vocab. rewrite Hv.
      destruct Hdocs as [->| ->];
        repeat (apply Forall_cons; split; [vm_compute; lia|]); apply Forall_nil_2.
Qed.

Lemma single_token_feature_counts_kept_tokens_witness :
  Tokenizer_init docs3 100 true = Ok docs3_tokenizer ∧
  ∃ f ds' g',
    getitem docs3_dataset (-1) 1 [1%N] = Ok (f, ds', g') ∧
    ∃ doc k,
      all_docs docs3_dataset !! 1%nat = Some doc ∧
      k = length (keep_in_vocab docs3_tokenizer doc) ∧
      (1 ≤ k)%nat ∧
      input_mask f = replicate (k `min` 5) 1 ++ replicate (5 - k) 0 ∧
      ((k ≤ 5)%nat → count_labels (lm_label_ids f) = 1%nat).
Proof.
  assert (Tokenizer_init docs3 100 true = Ok docs3_tokenizer) as Hinit
    by (vm_compute; reflexivity).
  split; [exact Hinit|].
  destruct (getitem docs3_dataset (-1) 1 [1%N]) as [[[f ds'] g']|] eqn:Hget;
    [|vm_compute in Hget; discriminate Hget].
  exists f, ds', g'. split; [reflexivity|].
  exact (proj1 single_token_feature_counts_kept_tokens
           docs3 100 true docs3_tokenizer docs3_dataset (-1)%Q 1%nat [1%N] f ds' g'
           Hinit eq_refl eq_refl eq_refl Hget).
Defined.

(** ** Real-token positions never hold id 0 *)

Lemma slice_to_Forall2 {A B} (P : A → B → Prop) n l k :
  Forall2 P l k → Forall2 P (slice_to n l) (slice_to n k).
Proof.
  intros H. unfold slice_to. rewrite (Forall2_length _ _ _ H).
  destruct (n <? 0); by apply Forall2_take.
Qed.

Lemma truncate_real_nonzero L f : real_nonzero f → real_nonzero (truncate L f).
Proof.
  unfold real_nonzero, truncate. intros H.
  destruct (L <? _); [|done]. simpl. by apply slice_to_Forall2.
Qed.

Lemma pad_loop_real_nonzero L : ∀ fuel f,
  real_nonzero f → real_nonzero (pad_loop fuel L f).
Proof.
  induction fuel as [|fuel IH]; intros f H; simpl; [done|].
  destruct (_ <? L); [|done]. apply IH.
  unfold real_nonzero, pad_step. simpl.
  apply Forall2_app; [done|]. by constructor.
Qed.

Lemma masked_tokens_nonzero kept tk doc toks :
  built_from kept tk →
  Forall2 (λ t' t, t' = MASK ∨ t' = t) toks (keep_in_vocab tk doc) →
  Forall (λ t, id_of tk (length kept) t ≠ 0%nat) toks.
Proof.
  intros Hb H. apply Forall_forall. intros t' Ht'.
  apply list_elem_of_lookup_1 in Ht' as [i Hi].
  destruct (Forall2_lookup_l _ _ _ _ _ H Hi) as (t & Ht & [->| ->]).
  - unfold id_of. by rewrite (vocab_MASK _ _ Hb).
  - apply list_elem_of_lookup_2, keep_in_vocab_spec in Ht as [_ (j & Hj & Hne)].
    unfold id_of. by rewrite Hj.
Qed.

(** C10: for a constructed tokenizer there is an ordinary token of id 0;
    the tokens the sample provider keeps of a document are exactly its
    tokens whose looked-up id exists and is not 0, so that token is
    removed like the tokens absent from the vocabulary; and in every
    Feature produced, in either masking mode, no position with
    input_mask 1 holds id 0. *)
Theorem id_zero_token_is_filtered_out docs V lc tk ds p item g f ds' g' :
  Tokenizer_init docs V lc = Ok tk →
  tokenizer ds = Some tk →
  getitem ds p item g = Ok (f, ds', g') →
  (∃ t0, vocab tk !! t0 = Some 0%nat ∧ t0 ≠ UNK ∧ t0 ≠ MASK) ∧
  ∃ doc,
    all_docs ds !! item = Some doc ∧
    (∀ t, t ∈ keep_in_vocab tk doc ↔
          t ∈ tokenize doc ∧ ∃ i, vocab tk !! t = Some i ∧ i ≠ 0%nat) ∧
    (∀ t, vocab tk !! t = Some 0%nat → t ∉ keep_in_vocab tk doc) ∧
    (∀ i, input_mask f !! i = Some 1 → ∃ x, input_ids f !! i = Some x ∧ x ≠ 0).
Proof.
  intros Hinit Htk Hget.
  apply Tokenizer_init_Ok in Hinit as (kept & Hb & _).
  split.
  { destruct kept as [|t0 kept'] eqn:Hk; [by destruct (bf_nonempty _ _ Hb)|].
    rewrite <- Hk in *. assert (kept !! 0%nat = Some t0) as H0 by (by rewrite Hk).
    pose proof (bf_alphabetic _ _ Hb t0 (list_elem_of_lookup_2 _ _ _ H0)) as Ha.
    exists t0. split; [apply (vocab_lookup _ _ _ _ Hb); auto|].
    split; [by apply alphabetic_not_UNK|by apply alphabetic_not_MASK]. }
  apply getitem_Ok in Hget as (tk' & doc & toks & labels & Htk' & Hdoc & Hrw & Henc & _).
  assert (tk' = tk) as -> by congruence.
  exists doc. split; [done|]. split; [apply keep_in_vocab_spec|]. split.
  { intros t Ht Hin. apply keep_in_vocab_spec in Hin as [_ (i & Hi & Hne)]. congruence. }
  apply random_word_out in Hrw as (Hlen & _ & Hmasked).
  pose proof (masked_tokens_nonzero _ _ _ _ Hb Hmasked) as Hnz.
  unfold encode_features in Henc.
  rewrite (convert_tokens_to_ids_built _ _ _ Hb) in Henc. simpl in Henc.
  injection Henc as <-.
  match goal with
  | |- context [pad_loop ?n ?L (truncate ?L ?f0)] =>
      assert (real_nonzero (pad_loop n L (truncate L f0))) as Hreal
  end.
  { apply pad_loop_real_nonzero, truncate_real_nonzero.
    unfold real_nonzero. simpl. rewrite !length_fmap.
    apply Forall2_same_length_lookup. split.
    - by rewrite length_replicate, !length_fmap.
    - intros i m x _ Hx _. rewrite !list_lookup_fmap in Hx.
      destruct (toks !! i) as [t|] eqn:Ht; [|done]. simpl in Hx.
      injection Hx as <-.
      pose proof (Forall_lookup_1 _ _ _ _ Hnz Ht) as Ht0. simpl in Ht0. lia. }
  intros i Hi.
  destruct (Forall2_lookup_l _ _ _ _ _ Hreal Hi) as (x & Hx & Hne).
  exists x. auto.
Qed.

Lemma id_zero_token_is_filtered_out_witness :
  Tokenizer_init docs3 100 true = Ok docs3_tokenizer ∧
  tokenizer docs3_dataset = Some docs3_tokenizer ∧
  ∃ f ds' g',
    getitem docs3_dataset (1 # 2) 1 [0%N; (2 ^ 52)%N] = Ok (f, ds', g') ∧
    (∃ t0, vocab docs3_tokenizer !! t0 = Some 0%nat ∧ t0 ≠ UNK ∧ t0 ≠ MASK) ∧
    ∃ doc,
      all_docs docs3_dataset !! 1%nat = Some doc ∧
      (∀ t, t ∈ keep_in_vocab docs3_tokenizer doc ↔
            t ∈ tokenize doc ∧ ∃ i, vocab docs3_tokenizer !! t = Some i ∧ i ≠ 0%nat) ∧
      (∀ t, vocab docs3_tokenizer !! t = Some 0%nat → t ∉ keep_in_vocab docs3_tokenizer doc) ∧
      (∀ i, input_mask f !! i = Some 1 → ∃ x, input_ids f !! i = Some x ∧ x ≠ 0).
Proof.
  assert (Tokenizer_init docs3 100 true = Ok docs3_tokenizer) as Hinit
    by (vm_compute; reflexivity).
  split; [exact Hinit|]. split; [reflexivity|].
  destruct (getitem docs3_dataset (1 # 2) 1 [0%N; (2 ^ 52)%N]) as [[[f ds'] g']|] eqn:Hget;
    [|vm_compute in Hget; discriminate Hget].
  exists f, ds', g'. split; [reflexivity|].
  exact (id_zero_token_is_filtered_out docs3 100 true docs3_tokenizer docs3_dataset
           (1 # 2)%Q 1%nat [0%N; (2 ^ 52)%N] f ds' g' Hinit eq_refl Hget).
Defined.

(** ** The corpus loader at the end of the file *)

(** C5, at concrete inputs: a file without any blank line makes the loader
    raise IndexError instead of keeping its document; a final block equal
    to the document before it is not appended; a final block that differs
    from the document before it is appended. *)
Theorem trailing_document_can_be_lost :
  load_corpus (CorpusPath ["hello world"]) = Err IndexError ∧
  load_corpus (CorpusPath ["same text"; EmptyString; "same text"]) = Ok ["same text"] ∧
  load_corpus (CorpusPath ["one text"; EmptyString; "other text"])
    = Ok ["one text"; "other text"].
Proof. vm_compute. done. Qed.

(** ** The entity-weight builder and the caller's sets *)

(** C9, at a concrete input: the builder returns the weight vector and
    leaves the TEC set alone, but the caller's FIELD set, which held only
    "nlp", holds "bert" as well after the call. *)
Theorem set_entities_weight_updates_field_set :
  snd <$> set_entities_weight docs3_dataset (Some [mkEntity 0 1]) 3 entity_heap
    = Ok entity_heap_after ∧
  (ent_weights ∘ fst) <$> set_entities_weight docs3_dataset (Some [mkEntity 0 1]) 3 entity_heap
    = Ok (Some [1; 1; 1; 3; 1]%Q) ∧
  deref entity_heap 0 = {[ "nlp" ]} ∧
  deref entity_heap_after 0 = {[ "nlp"; "bert" ]} ∧
  deref entity_heap_after 1 = deref entity_heap 1 ∧
  entity_heap_after ≠ entity_heap.
Proof.
  split; [vm_compute; reflexivity|]. split; [vm_compute; reflexivity|].
  split; [vm_compute; reflexivity|]. split; [vm_compute; reflexivity|].
  split; [vm_compute; reflexivity|].
  intros Heq. apply (f_equal (λ h, bool_decide ("bert" ∈ deref h 0))) in Heq.
  vm_compute in Heq. discriminate Heq.
Qed.

(** ** The sweep and its best scores *)

Lemma Qltb_false_le x y : Qltb x y = false → (y <= x)%Q.
Proof.
  unfold Qltb. intros H. apply negb_false_iff in H. by apply Qle_bool_iff.
Qed.

Lemma Qltb_true_le x y : Qltb x y = true → (x <= y)%Q.
Proof.
  unfold Qltb. intros H. apply negb_true_iff in H.
  apply Qlt_le_weak, Qnot_le_lt. intros Hle.
  apply Qle_bool_iff in Hle. congruence.
Qed.

Lemma max_fold xs : ∀ m,
  let r := foldl (λ m y, if Qltb m y then y else m) m xs in
  (r = m ∨ r ∈ xs) ∧ (m <= r)%Q ∧ ∀ x, x ∈ xs → (x <= r)%Q.
Proof.
  induction xs as [|y xs IH]; intros m; simpl.
  - split; [auto|]. split; [apply Qle_refl|]. intros x Hx. by apply elem_of_nil in Hx.
  - destruct (IH (if Qltb m y then y else m)) as (Hin & Hle & Hall).
    destruct (Qltb m y) eqn:E.
    + apply Qltb_true_le in E. split; [|split].
      * right. destruct Hin as [->|Hin]; [apply list_elem_of_here|by apply list_elem_of_further].
      * by eapply Qle_trans.
      * intros x [->|Hx]%elem_of_cons; auto.
    + apply Qltb_false_le in E. split; [|split].
      * destruct Hin as [->|Hin]; [auto|right; by apply list_elem_of_further].
      * done.
      * intros x [->|Hx]%elem_of_cons; [by eapply Qle_trans|auto].
Qed.

Lemma py_max_Ok l b : py_max l = Ok b → is_max b l.
Proof.
  destruct l as [|x xs]; simpl; [done|]. intros [= <-].
  destruct (max_fold xs x) as (Hin & Hle & Hall). split.
  - destruct Hin as [->|Hin]; [apply list_elem_of_here|by apply list_elem_of_further].
  - intros y [->|Hy]%elem_of_cons; auto.
Qed.

Lemma mapM_Ok_Forall2 {A B} (f : A → result B) l k :
  mapM f l = Ok k → Forall2 (λ x y, f x = Ok y) l k.
Proof.
  revert k. induction l as [|x l IH]; intros k; simpl.
  - intros [= <-]. constructor.
  - destruct (f x) as [y|] eqn:E; simpl; [|done].
    destruct (mapM f l) as [k'|]; simpl; [|done].
    intros [= <-]. constructor; auto.
Qed.

Lemma set_entities_weight_frame ds entities w h ds' h' :
  set_entities_weight ds entities w h = Ok (ds', h') →
  tokenizer ds' = tokenizer ds ∧ all_docs ds' = all_docs ds.
Proof.
  unfold set_entities_weight. intros H.
  destruct (match entities with Some (_ :: _) => _ | _ => _ end) as [[ids h1]|];
    simpl in H; [|done].
  destruct (ds_vocab ds) as [v|]; simpl in H; [|done].
  destruct (foldl _ _ _) as [ws|]; simpl in H; [|done].
  by injection H as <- <-.
Qed.

Section sweep_facts.
Variable epoch : Q → nat → MyDataset → result pyval.
Variable args : Args.
Variable dataset : dataset_arg.

Lemma epochs_loop_Ok p ds : ∀ n k scores st scores' st',
  epochs_loop epoch p ds k n scores st = (Ok scores', st') →
  ∃ new, scores' = scores ++ new ∧ length new = n ∧
         (∀ j v, new !! j = Some v → epoch p (k + j) ds = Ok v) ∧
         st_best_scores st' = st_best_scores st.
Proof.
  induction n as [|n IH]; intros k scores st scores' st'; simpl.
  - intros [= <- <-]. exists []. rewrite app_nil_r. by repeat split.
  - unfold mbind, St_bind, enter_epoch, lift. simpl.
    destruct (epoch p k ds) as [v|] eqn:Hv; [|done].
    intros H. apply IH in H as (new & -> & Hlen & Hnew & Hbest).
    exists (v :: new). rewrite <- app_assoc. simpl.
    split; [done|]. split; [by rewrite Hlen|]. split; [|done].
    intros [|j] w Hj; simpl in Hj.
    + injection Hj as <-. by rewrite Nat.add_0_r.
    + rewrite <- Nat.add_succ_comm. by apply Hnew.
Qed.

Lemma main_config_Ok p st st' :
  main_config epoch args dataset p st = (Ok tt, st') →
  ∃ best, st_best_scores st' = st_best_scores st ++ [best] ∧
          best_of_config epoch args p best.
Proof.
  unfold main_config, mbind, St_bind, mret, St_ret, raise, lift,
    get_state, set_batch_size, set_heap, append_best; simpl.
  destruct (gradient_accumulation_steps args <? 1); [done|].
  destruct (do_train args); [|done].
  destruct (MyDataset_init _ _) as [ds0|]; [|done].
  destruct (_ =? 0); [done|].
  destruct (Tokenizer_init _ _ _) as [tk|] eqn:Htk; [|done].
  destruct (weighted args); [destruct dataset as [lines|data ents]; [done|]|].
  all: destruct (set_entities_weight _ _ _ _) as [[ds h']|] eqn:Hset; [|done].
  all: apply set_entities_weight_frame in Hset as [Hset1 Hset2]; simpl in Hset1, Hset2.
  all: destruct (epochs_loop _ _ _ _ _ _ _) as [[scores|] st1] eqn:Hloop; [|done].
  all: apply epochs_loop_Ok in Hloop as (new & -> & Hlen & Hnew & Hbest).
  all: destruct (mapM subscript1 _) as [firsts|] eqn:Hfirsts; [|done].
  all: destruct (py_max firsts) as [best|] eqn:Hmax; [|done].
  all: intros [= <-]; simpl; exists best; split; [by rewrite Hbest|].
  all: exists ds, tk, firsts; apply mapM_Ok_Forall2 in Hfirsts; simpl in Hfirsts.
  all: split; [done|]; split; [by rewrite Hset2|].
  all: split; [by rewrite <- (Forall2_length _ _ _ Hfirsts)|].
  all: split; [|by apply py_max_Ok].
  all: intros k x Hk;
    destruct (Forall2_lookup_r _ _ _ _ _ Hfirsts Hk) as (v & Hv & Hsub);
    exists v; split; [exact (Hnew k v Hv)|done].
Qed.

Lemma sweep_Ok : ∀ ps st st',
  sweep epoch args dataset ps st = (Ok tt, st') →
  ∃ bests, st_best_scores st' = st_best_scores st ++ bests ∧
           Forall2 (best_of_config epoch args) ps bests.
Proof.
  induction ps as [|p ps IH]; intros st st'; simpl.
  - intros [= <-]. exists []. by rewrite app_nil_r.
  - unfold mbind, St_bind.
    destruct (main_config _ _ _ _ _) as [[[]|] st1] eqn:Hcfg; [|done].
    intros H. apply IH in H as (bests & Hb & Hall).
    apply main_config_Ok in Hcfg as (best & Hb1 & Hbest).
    exists (best :: bests). split; [|by constructor].
    rewrite Hb, Hb1, <- app_assoc. done.
Qed.
End sweep_facts.

(** C4: the code departs from the claim.  With a hook that returns a
    scalar score per epoch, as the hook is specified, the first
    configuration runs its two epochs and the sweep then raises TypeError
    where it indexes the scores ([f[1]], line 449): no best score is
    recorded for any configuration, where the claim has one entry per
    configuration, the maximum of its scores. *)
Lemma scalar_hook_sweep_fails :
  (main scalar_epoch sweep_args (DatasetObj docs3 None) ∅).1 = Err TypeError ∧
  st_best_scores (main scalar_epoch sweep_args (DatasetObj docs3 None) ∅).2 = [] ∧
  st_epochs (main scalar_epoch sweep_args (DatasetObj docs3 None) ∅).2
    = [((-1)%Q, 0%nat); ((-1)%Q, 1%nat)].
Proof. vm_compute. done. Qed.

(** The same happens at the module's own entry point, whose hook prints
    and returns nothing, and with the arguments of doc_embed.py: the ten
    epochs of the first configuration run, then TypeError. *)
Lemma none_hook_default_run_fails :
  (main none_epoch (Args_init 28000) (DatasetObj docs3 None) ∅).1 = Err TypeError ∧
  st_best_scores (main none_epoch (Args_init 28000) (DatasetObj docs3 None) ∅).2 = [] ∧
  st_epochs (main none_epoch (Args_init 28000) (DatasetObj docs3 None) ∅).2
    = epochs_of 10 (-1)%Q.
Proof. vm_compute. done. Qed.

(** What the code does compute: a configuration that completes appends
    exactly one value to the best scores, the greatest of the components
    at index 1 of the values its evaluation hook returned over its epochs;
    and if the sweep completes, the best scores hold one such entry per
    swept configuration, in sweep order.  Only a hook whose values can be
    indexed at 1 lets a configuration complete. *)
Theorem best_scores_are_max_of_hook_component epoch args dataset :
  (∀ p st st',
     main_config epoch args dataset p st = (Ok tt, st') →
     ∃ best, st_best_scores st' = st_best_scores st ++ [best] ∧
             best_of_config epoch args p best) ∧
  (∀ h st,
     main epoch args dataset h = (Ok tt, st) →
     Forall2 (best_of_config epoch args) (probs args) (st_best_scores st)).
Proof.
  split; [apply main_config_Ok|].
  intros h st H. unfold main in H.
  apply sweep_Ok in H as (bests & Hb & Hall). simpl in Hb. by rewrite Hb.
Qed.

Lemma best_scores_are_max_of_hook_component_witness :
  ∃ st, main pair_epoch sweep_args (DatasetObj docs3 None) ∅ = (Ok tt, st) ∧
        st_best_scores st = [1; 1; 1; 1; 1]%Q ∧
        Forall2 (best_of_config pair_epoch sweep_args) (probs sweep_args)
          (st_best_scores st).
Proof.
  destruct (main pair_epoch sweep_args (DatasetObj docs3 None) ∅) as [r st] eqn:H.
  assert (r = Ok tt) as -> by (vm_compute in H; congruence).
  exists st. split; [reflexivity|].
  split; [vm_compute in H; injection H as <-; reflexivity|].
  exact (proj2 (best_scores_are_max_of_hook_component pair_epoch sweep_args
                  (DatasetObj docs3 None)) ∅ st H).
Defined.

(** * Further properties of the code *)

(** ** The corpus loader on files that end with a separator *)

Lemma append_assoc_s (a b c : string) : (a +:+ b) +:+ c = a +:+ (b +:+ c).
Proof.
  induction a as [|x a IH]; [done|].
  change (String x ((a +:+ b) +:+ c) = String x (a +:+ (b +:+ c))). by rewrite IH.
Qed.

Lemma append_empty_r (a : string) : a +:+ EmptyString = a.
Proof.
  induction a as [|x a IH]; [done|].
  change (String x (a +:+ EmptyString) = String x a). by rewrite IH.
Qed.

Lemma load_block (b : list string) : ∀ st,
  Forall (λ l, ¬ blank l) b →
  foldl load_line st b =
    {| ls_all_docs := ls_all_docs st;
       ls_doc := ls_doc st +:+ concat_all (Str.strip <$> b);
       ls_corpus_lines := (ls_corpus_lines st + length b)%nat |}.
Proof.
  induction b as [|l b IH]; intros st Hb; simpl.
  - rewrite append_empty_r, Nat.add_0_r. by destruct st.
  - apply Forall_cons in Hb as [Hl Hb]. rewrite IH by done.
    unfold load_line at 1 2 3. rewrite bool_decide_eq_false_2 by done. simpl.
    rewrite append_assoc_s. f_equal. lia.
Qed.

Lemma load_blocks (blocks : list (list string * string)) : ∀ st,
  Forall (λ b, Forall (λ l, ¬ blank l) b.1 ∧ blank b.2) blocks →
  ls_doc st = EmptyString →
  foldl load_line st (file_of_blocks blocks) =
    {| ls_all_docs := ls_all_docs st ++ ((λ b, concat_all (Str.strip <$> b.1)) <$> blocks);
       ls_doc := EmptyString;
       ls_corpus_lines := (ls_corpus_lines st + length (concat (fst <$> blocks)))%nat |}.
Proof.
  induction blocks as [|[b sep] blocks IH]; intros st Hb Hdoc; simpl.
  - rewrite app_nil_r, Nat.add_0_r. destruct st; simpl in *. by subst.
  - apply Forall_cons in Hb as [[Hlines Hsep] Hb]. simpl in *.
    unfold file_of_blocks in *. simpl. rewrite <- app_assoc, foldl_app.
    rewrite (load_block b) by exact Hlines. simpl.
    unfold load_line at 2. rewrite bool_decide_eq_true_2 by done. simpl.
    rewrite IH by done. simpl. rewrite Hdoc.
    rewrite <- app_assoc, length_app. f_equal; try reflexivity.
    by rewrite Nat.add_assoc.
Qed.

(** X1: a file made of one or more blocks of non-blank lines, each followed
    by a blank line, loads without error into one document per block, in
    order; a document is the concatenation, without separator, of the
    stripped lines of its block (so consecutive blank lines give an empty
    document), and corpus_lines counts the non-blank lines. *)
Theorem load_blank_terminated_blocks (blocks : list (list string * string)) (L : Z) :
  blocks ≠ [] →
  Forall (λ b, Forall (λ l, ¬ blank l) b.1 ∧ blank b.2) blocks →
  ∃ ds, MyDataset_init (CorpusPath (file_of_blocks blocks)) L = Ok ds ∧
    all_docs ds = (λ b, concat_all (Str.strip <$> b.1)) <$> blocks ∧
    num_docs ds = length blocks ∧
    corpus_lines ds = length (concat (fst <$> blocks)).
Proof.
  intros Hne Hb. unfold MyDataset_init, load_corpus, load_lines.
  rewrite (load_blocks blocks (LoadState [] EmptyString 0) Hb eq_refl). simpl.
  unfold load_tail. simpl.
  destruct (last _) as [d|] eqn:Hlast.
  - rewrite andb_false_r. simpl. eexists. split; [reflexivity|]. simpl.
    by rewrite length_fmap.
  - apply last_None in Hlast. apply fmap_nil_inv in Hlast. done.
Qed.

Lemma load_blank_terminated_blocks_witness :
  sample_blocks ≠ [] ∧
  Forall (λ b, Forall (λ l, ¬ blank l) b.1 ∧ blank b.2) sample_blocks ∧
  ∃ ds, MyDataset_init (CorpusPath (file_of_blocks sample_blocks)) 5 = Ok ds ∧
    all_docs ds = (λ b, concat_all (Str.strip <$> b.1)) <$> sample_blocks ∧
    num_docs ds = length sample_blocks ∧
    corpus_lines ds = length (concat (fst <$> sample_blocks)).
Proof.
  assert (sample_blocks ≠ []) as Hne by done.
  assert (Forall (λ b, Forall (λ l, ¬ blank l) b.1 ∧ blank b.2) sample_blocks) as Hb.
  { unfold sample_blocks. repeat first
      [ apply Forall_nil_2
      | apply Forall_cons; split
      | match goal with |- _ ∧ _ => split end
      | match goal with |- blank _ => reflexivity end
      | match goal with |- ¬ blank _ => intros H; vm_compute in H; discriminate H end ]. }
  split; [exact Hne|]. split; [exact Hb|].
  exact (load_blank_terminated_blocks _ 5 Hne Hb).
Defined.

(** ** What the vocabulary holds, and when it cannot be built *)

Lemma fit_Ok_df tokenizer max_df min_df mf docs v t i :
  CountVectorizer.fit tokenizer max_df min_df mf docs = Ok v →
  v !! t = Some i →
  (min_df ≤ CountVectorizer.df (CountVectorizer.analyze tokenizer <$> docs) t ≤ max_df) ∧
  ∃ doc, doc ∈ docs ∧ t ∈ tokenizer (Str.lower doc).
Proof.
  intros Hfit Hi. pose proof Hfit as Hfit'.
  apply fit_Ok in Hfit' as (kept & -> & _ & Hnd & _ & Hsrc).
  apply elem_of_list_to_map_2, elem_of_zip_l in Hi.
  split; [|by apply Hsrc].
  unfold CountVectorizer.fit in Hfit.
  destruct (mf <=? 0); [done|]. case_bool_decide; [done|].
  destruct (max_df <? min_df); [done|]. case_bool_decide; [done|].
  injection Hfit as Hfit.
  apply (f_equal (λ m : gmap string nat, dom m)) in Hfit.
  rewrite !dom_list_to_map_L in Hfit.
  rewrite !fst_zip in Hfit by (rewrite length_seq; lia).
  assert (t ∈ CountVectorizer.limit_features max_df min_df mf
                (CountVectorizer.analyze tokenizer <$> docs)
                (CountVectorizer.sort_features
                   (CountVectorizer.count_vocab (CountVectorizer.analyze tokenizer <$> docs))))
    as Ht.
  { apply (elem_of_list_to_set (C:=gset string)). rewrite Hfit.
    by apply elem_of_list_to_set. }
  unfold CountVectorizer.limit_features in Ht.
  case_match.
  - apply list_elem_of_filter in Ht as [_ Ht].
    apply list_elem_of_filter in Ht as [Ht _]. lia.
  - apply list_elem_of_filter in Ht as [Ht _]. lia.
Qed.

Lemma fit_Err tokenizer max_df min_df mf docs e :
  CountVectorizer.fit tokenizer max_df min_df mf docs = Err e →
  ∃ msg, e = ValueError msg.
Proof.
  unfold CountVectorizer.fit.
  repeat first [case_bool_decide | case_match]; intros [= <-]; by eexists.
Qed.

Lemma Tokenizer_init_Err docs V lc e :
  Tokenizer_init docs V lc = Err e → ∃ msg, e = ValueError msg.
Proof.
  unfold Tokenizer_init.
  destruct (CountVectorizer.fit _ _ _ _ _) as [v|e'] eqn:Hfit; simpl; [done|].
  intros [= <-]. by eapply fit_Err.
Qed.

Lemma Tokenizer_init_ordinary docs V lc tk t :
  Tokenizer_init docs V lc = Ok tk → t ≠ UNK → t ≠ MASK →
  ∃ v0, CountVectorizer.fit tokenize 1000 2 (V - 2) docs = Ok v0 ∧
        vocab tk !! t = v0 !! t.
Proof.
  unfold Tokenizer_init. intros H HU HM.
  destruct (CountVectorizer.fit _ _ _ _ _) as [v0|] eqn:Hfit; simpl in H; [|done].
  injection H as <-. exists v0. split; [done|]. simpl.
  by rewrite !lookup_insert_ne.
Qed.

Lemma doc_freq_le docs t : doc_freq docs t ≤ Z.of_nat (length docs).
Proof.
  unfold doc_freq, CountVectorizer.df.
  pose proof (length_filter (λ d, t ∈ d) (CountVectorizer.analyze tokenize <$> docs)) as H.
  rewrite length_fmap in H. lia.
Qed.

(** X2: for a corpus of ASCII documents, every ordinary word of a
    constructed vocabulary occurs in at least two and at most 1000
    documents of the corpus, has between 2 and 15 characters, all of them
    ASCII letters or underscores, and does not start with an underscore. *)
Theorem vocabulary_word_is_frequent docs V lc tk t i :
  Forall ascii_text docs →
  Tokenizer_init docs V lc = Ok tk →
  vocab tk !! t = Some i → t ≠ UNK → t ≠ MASK →
  2 ≤ doc_freq docs t ≤ 1000 ∧
  (2 ≤ String.length t ≤ 15)%nat ∧
  alphabetic t ∧ Str.startswith "_"%char t = false.
Proof.
  intros _ Hinit Hi HU HM.
  destruct (Tokenizer_init_ordinary _ _ _ _ t Hinit HU HM) as (v0 & Hfit & Hv0).
  rewrite Hv0 in Hi.
  destruct (fit_Ok_df _ _ _ _ _ _ _ _ Hfit Hi) as (Hdf & doc & _ & Hdoc).
  split; [exact Hdf|].
  pose proof (tokenize_alphabetic _ _ Hdoc) as Ha.
  unfold tokenize, simple_preprocess in Hdoc.
  apply list_elem_of_filter in Hdoc as [Hkeep _].
  unfold keep_token in Hkeep.
  apply Is_true_true in Hkeep.
  apply andb_true_iff in Hkeep as [Hlen Hstart].
  apply andb_true_iff in Hlen as [Hlo Hhi].
  apply Nat.leb_le in Hlo, Hhi. apply negb_true_iff in Hstart.
  done.
Qed.

Lemma vocabulary_word_is_frequent_witness :
  Forall ascii_text docs3 ∧
  Tokenizer_init docs3 100 true = Ok docs3_tokenizer ∧
  vocab docs3_tokenizer !! "bird" = Some 0%nat ∧ "bird" ≠ UNK ∧ "bird" ≠ MASK ∧
  2 ≤ doc_freq docs3 "bird" ≤ 1000 ∧
  (2 ≤ String.length "bird" ≤ 15)%nat ∧
  alphabetic "bird" ∧ Str.startswith "_"%char "bird" = false.
Proof.
  assert (Forall ascii_text docs3) as Hascii
    by (repeat first [apply Forall_nil_2 | apply Forall_cons; split]; reflexivity).
  assert (Tokenizer_init docs3 100 true = Ok docs3_tokenizer) as Hinit
    by (vm_compute; reflexivity).
  assert (vocab docs3_tokenizer !! "bird" = Some 0%nat) as Hi by (vm_compute; reflexivity).
  assert ("bird" ≠ UNK) as HU by discriminate.
  assert ("bird" ≠ MASK) as HM by discriminate.
  split; [exact Hascii|].
  split; [exact Hinit|]. split; [exact Hi|]. split; [exact HU|]. split; [exact HM|].
  exact (vocabulary_word_is_frequent docs3 100 true docs3_tokenizer "bird" 0%nat
           Hascii Hinit Hi HU HM).
Defined.

Lemma Tokenizer_init_needs_two_docs docs V lc tk :
  Tokenizer_init docs V lc = Ok tk → (2 ≤ length docs)%nat.
Proof.
  intros Hinit. pose proof Hinit as Hinit'.
  apply Tokenizer_init_Ok in Hinit' as (kept & Hb & _).
  destruct kept as [|t0 kept'] eqn:Hk; [by destruct (bf_nonempty _ _ Hb)|].
  rewrite <- Hk in *.
  assert (kept !! 0%nat = Some t0) as H0 by (by rewrite Hk).
  pose proof (bf_alphabetic _ _ Hb t0 (list_elem_of_lookup_2 _ _ _ H0)) as Ha.
  assert (vocab tk !! t0 = Some 0%nat) as Hv by (apply (vocab_lookup _ _ _ _ Hb); auto).
  destruct (Tokenizer_init_ordinary _ _ _ _ t0 Hinit
              (alphabetic_not_UNK _ Ha) (alphabetic_not_MASK _ Ha)) as (v0 & Hfit & Hv0).
  rewrite Hv0 in Hv.
  destruct (fit_Ok_df _ _ _ _ _ _ _ _ Hfit Hv) as (Hdf & _).
  pose proof (doc_freq_le docs t0) as Hle. unfold doc_freq in Hle. lia.
Qed.

(** X3: a corpus of fewer than two documents has no vocabulary: whatever
    the size asked for, the construction of the tokenizer raises
    ValueError, since no word can reach the minimum document frequency. *)
Theorem small_corpus_has_no_vocabulary docs V lc :
  (length docs < 2)%nat →
  ∃ msg, Tokenizer_init docs V lc = Err (ValueError msg).
Proof.
  intros Hlen. destruct (Tokenizer_init docs V lc) as [tk|e] eqn:Hinit.
  - apply Tokenizer_init_needs_two_docs in Hinit. lia.
  - apply Tokenizer_init_Err in Hinit as [msg ->]. by exists msg.
Qed.

Lemma small_corpus_has_no_vocabulary_witness :
  (length ["the cat sat on the cat"] < 2)%nat ∧
  ∃ msg, Tokenizer_init ["the cat sat on the cat"] 100 true = Err (ValueError msg).
Proof.
  split; [simpl; lia|].
  apply (small_corpus_has_no_vocabulary ["the cat sat on the cat"] 100 true).
  simpl; lia.
Defined.

(** ** Conversions at the edges *)

(** X4: for a constructed tokenizer, converting tokens to ids never fails:
    the result has one id per token, the token's own id when it is in the
    vocabulary and the id of the unknown-token otherwise. *)
Theorem tokens_to_ids_substitutes_UNK docs V lc tk (tokens : list string) :
  Tokenizer_init docs V lc = Ok tk →
  ∃ ids unk,
    vocab tk !! UNK = Some unk ∧
    convert_tokens_to_ids tk tokens = Ok ids ∧
    length ids = length tokens ∧
    ∀ i t, tokens !! i = Some t → ids !! i = Some (default unk (vocab tk !! t)).
Proof.
  intros Hinit. apply Tokenizer_init_Ok in Hinit as (kept & Hb & _).
  exists (id_of tk (length kept) <$> tokens), (length kept).
  split; [by apply vocab_UNK|].
  split; [by apply convert_tokens_to_ids_built|].
  split; [by rewrite length_fmap|].
  intros i t Ht. by rewrite list_lookup_fmap, Ht.
Qed.

Lemma tokens_to_ids_substitutes_UNK_witness :
  Tokenizer_init docs3 100 true = Ok docs3_tokenizer ∧
  ∃ ids unk,
    vocab docs3_tokenizer !! UNK = Some unk ∧
    convert_tokens_to_ids docs3_tokenizer ["cat"; "fish"; "bird"] = Ok ids ∧
    length ids = length ["cat"; "fish"; "bird"] ∧
    ∀ i t, ["cat"; "fish"; "bird"] !! i = Some t →
           ids !! i = Some (default unk (vocab docs3_tokenizer !! t)).
Proof.
  assert (Tokenizer_init docs3 100 true = Ok docs3_tokenizer) as Hinit
    by (vm_compute; reflexivity).
  split; [exact Hinit|].
  exact (tokens_to_ids_substitutes_UNK docs3 100 true docs3_tokenizer _ Hinit).
Defined.

Lemma id_out_of_range kept tk i :
  built_from kept tk → (size (vocab tk) ≤ i)%nat → ids_to_tokens tk !! i = None.
Proof.
  intros Hb Hi. destruct (ids_to_tokens tk !! i) as [t|] eqn:Ht; [|done].
  apply (ids_to_tokens_lookup _ _ _ _ Hb) in Ht.
  apply (vocab_id_lt _ _ _ _ Hb) in Ht. rewrite (built_size _ _ Hb) in Hi. lia.
Qed.

(** X5: for a constructed tokenizer, converting ids to tokens raises
    KeyError as soon as one id is not below the size of the vocabulary. *)
Theorem ids_to_tokens_out_of_range docs V lc tk (ids : list nat) :
  Tokenizer_init docs V lc = Ok tk →
  Exists (λ i, (size (vocab tk) ≤ i)%nat) ids →
  ∃ key, convert_ids_to_tokens tk ids = Err (KeyError key).
Proof.
  intros Hinit. apply Tokenizer_init_Ok in Hinit as (kept & Hb & _).
  unfold convert_ids_to_tokens.
  induction 1 as [i ids Hi|i ids _ (key & IH)]; simpl.
  - rewrite (id_out_of_range _ _ _ Hb Hi). by eexists.
  - destruct (ids_to_tokens tk !! i); simpl; [|by eexists].
    rewrite IH. by eexists.
Qed.

Lemma ids_to_tokens_out_of_range_witness :
  Tokenizer_init docs3 100 true = Ok docs3_tokenizer ∧
  Exists (λ i, (size (vocab docs3_tokenizer) ≤ i)%nat) [1; 5; 2]%nat ∧
  ∃ key, convert_ids_to_tokens docs3_tokenizer [1; 5; 2]%nat = Err (KeyError key).
Proof.
  assert (Tokenizer_init docs3 100 true = Ok docs3_tokenizer) as Hinit
    by (vm_compute; reflexivity).
  assert (size (vocab docs3_tokenizer) = 5%nat) as Hsize by (vm_compute; reflexivity).
  assert (Exists (λ i, (size (vocab docs3_tokenizer) ≤ i)%nat) [1; 5; 2]%nat) as Hex.
  { rewrite Hsize. apply Exists_cons_tl, Exists_cons_hd. lia. }
  split; [exact Hinit|]. split; [exact Hex|].
  exact (ids_to_tokens_out_of_range docs3 100 true docs3_tokenizer _ Hinit Hex).
Defined.

Lemma mapM_cons_result {A B} (f : A → result B) x l :
  mapM f (x :: l) = f x ≫= λ y, mapM f l ≫= λ k, Ok (y :: k).
Proof. reflexivity. Qed.

(** X6: for a constructed tokenizer, converting tokens to ids and the ids
    back to tokens succeeds and returns every token of the vocabulary
    unchanged and the unknown-token in place of every other token. *)
Theorem tokens_to_ids_to_tokens docs V lc tk (tokens : list string) :
  Tokenizer_init docs V lc = Ok tk →
  convert_tokens_to_ids tk tokens ≫= convert_ids_to_tokens tk
    = Ok (known_or_UNK tk <$> tokens).
Proof.
  intros Hinit. apply Tokenizer_init_Ok in Hinit as (kept & Hb & _).
  rewrite (convert_tokens_to_ids_built _ _ _ Hb). simpl.
  unfold convert_ids_to_tokens.
  induction tokens as [|t tokens IH]; [done|].
  assert (ids_to_tokens tk !! id_of tk (length kept) t = Some (known_or_UNK tk t)) as Ht.
  { apply (ids_to_tokens_lookup _ _ _ _ Hb). unfold id_of, known_or_UNK.
    destruct (vocab tk !! t) eqn:Hv; simpl; [done|]. by apply vocab_UNK. }
  rewrite !fmap_cons, mapM_cons_result, Ht, IH. done.
Qed.

Lemma tokens_to_ids_to_tokens_witness :
  Tokenizer_init docs3 100 true = Ok docs3_tokenizer ∧
  convert_tokens_to_ids docs3_tokenizer ["cat"; "fish"; MASK]
    ≫= convert_ids_to_tokens docs3_tokenizer
    = Ok (known_or_UNK docs3_tokenizer <$> ["cat"; "fish"; MASK]).
Proof.
  assert (Tokenizer_init docs3 100 true = Ok docs3_tokenizer) as Hinit
    by (vm_compute; reflexivity).
  split; [exact Hinit|].
  exact (tokens_to_ids_to_tokens docs3 100 true docs3_tokenizer _ Hinit).
Defined.

(** ** Probabilistic masking *)

Lemma random_tape g : (random g).2 = drop 1 g.
Proof. unfold random, draw. by destruct g. Qed.

Lemma random_lt_1 g : ((random g).1 < 1)%Q.
Proof.
  unfold random. destruct (draw g) as [n g']. unfold Qlt. simpl.
  pose proof (N.mod_upper_bound n (2 ^ 53) ltac:(done)) as H.
  apply N2Z.inj_lt in H.
  assert (Z.of_N (2 ^ 53) = Z.pos (2 ^ 53)) as E by reflexivity.
  rewrite E in H. rewrite Z.mul_1_r, Z.mul_1_l. exact H.
Qed.

Lemma random_ge_0 g : (0 <= (random g).1)%Q.
Proof.
  unfold random. destruct (draw g) as [n g']. unfold Qle. simpl.
  rewrite Z.mul_1_r. apply N2Z.is_nonneg.
Qed.

Lemma masked_at_S p g i : masked_at p g (S i) = masked_at p (random g).2 i.
Proof.
  unfold masked_at. rewrite random_tape, drop_drop. done.
Qed.

Lemma random_word_loop_spec v unk p :
  v !! UNK = Some unk → ∀ tokens g,
  ∃ toks labels,
    random_word_loop v p tokens g = Ok (toks, labels, drop (length tokens) g) ∧
    length toks = length tokens ∧ length labels = length tokens ∧
    ∀ i t, tokens !! i = Some t →
      toks !! i = Some (if masked_at p g i then MASK else t) ∧
      labels !! i = Some (if masked_at p g i
                          then Z.of_nat (default unk (v !! t)) else -1).
Proof.
  intros Hunk. induction tokens as [|t tokens IH]; intros g.
  - exists [], []. simpl. repeat split; done.
  - simpl. pose proof (masked_at_S p g) as HS. pose proof (random_tape g) as Htape.
    assert (masked_at p g 0 = Qltb (random g).1 p) as H0 by done.
    destruct (random g) as [prob g1]. simpl in *. subst g1.
    destruct (IH (drop 1 g)) as (toks & labels & -> & Hlt & Hll & Hspec).
    rewrite drop_drop. simpl.
    destruct (Qltb prob p) eqn:Hm.
    + assert ((match v !! t with Some i => Ok i | None => vocab_getitem v UNK end)
              = Ok (default unk (v !! t))) as ->.
      { destruct (v !! t); simpl; [done|]. unfold vocab_getitem. by rewrite Hunk. }
      simpl. eexists _, _. split; [reflexivity|]. simpl. rewrite Hlt, Hll.
      split; [done|]. split; [done|].
      intros [|i] t' Ht'; simpl in *.
      * injection Ht' as <-. by rewrite H0.
      * rewrite HS. by apply Hspec.
    + eexists _, _. split; [reflexivity|]. simpl. rewrite Hlt, Hll.
      split; [done|]. split; [done|].
      intros [|i] t' Ht'; simpl in *.
      * injection Ht' as <-. by rewrite H0.
      * rewrite HS. by apply Hspec.
Qed.

(** X7: in probabilistic mode, with a constructed tokenizer, masking never
    fails and uses one draw per token; the outputs are parallel to the
    input; a position is masked exactly when its draw is below mask_prob,
    and then holds the mask-token and, as label, the id of the original
    token (the unknown-token's id if the token is not in the vocabulary);
    any other position keeps its token and gets the label -1. *)
Theorem probabilistic_masking docs V lc tk (tokens : list string) (p : Q) (g : tape) :
  Tokenizer_init docs V lc = Ok tk →
  Qeq_bool p (-1) = false →
  ∃ toks labels unk,
    vocab tk !! UNK = Some unk ∧
    random_word tokens tk p g = Ok (toks, labels, drop (length tokens) g) ∧
    length toks = length tokens ∧ length labels = length tokens ∧
    ∀ i t, tokens !! i = Some t →
      toks !! i = Some (if masked_at p g i then MASK else t) ∧
      labels !! i = Some (if masked_at p g i
                          then Z.of_nat (default unk (vocab tk !! t)) else -1).
Proof.
  intros Hinit Hp. apply Tokenizer_init_Ok in Hinit as (kept & Hb & _).
  pose proof (vocab_UNK _ _ Hb) as Hunk.
  destruct (random_word_loop_spec _ _ p Hunk tokens g) as (toks & labels & H).
  exists toks, labels, (length kept). split; [done|].
  unfold random_word. by rewrite Hp.
Qed.

Lemma probabilistic_masking_witness :
  Tokenizer_init docs3 100 true = Ok docs3_tokenizer ∧
  Qeq_bool (1 # 2) (-1) = false ∧
  ∃ toks labels unk,
    vocab docs3_tokenizer !! UNK = Some unk ∧
    random_word ["dog"; "fish"; "cat"] docs3_tokenizer (1 # 2) [0%N; 1%N; (2 ^ 52)%N]
      = Ok (toks, labels, drop (length ["dog"; "fish"; "cat"]) [0%N; 1%N; (2 ^ 52)%N]) ∧
    length toks = length ["dog"; "fish"; "cat"] ∧
    length labels = length ["dog"; "fish"; "cat"] ∧
    ∀ i t, ["dog"; "fish"; "cat"] !! i = Some t →
      toks !! i = Some (if masked_at (1 # 2) [0%N; 1%N; (2 ^ 52)%N] i then MASK else t) ∧
      labels !! i = Some (if masked_at (1 # 2) [0%N; 1%N; (2 ^ 52)%N] i
                          then Z.of_nat (default unk (vocab docs3_tokenizer !! t)) else -1).
Proof.
  assert (Tokenizer_init docs3 100 true = Ok docs3_tokenizer) as Hinit
    by (vm_compute; reflexivity).
  split; [exact Hinit|]. split; [reflexivity|].
  exact (probabilistic_masking docs3 100 true docs3_tokenizer _ (1 # 2)%Q _ Hinit eq_refl).
Defined.

Lemma masked_at_ge_1 p g i : (1 <= p)%Q → masked_at p g i = true.
Proof.
  intros Hp. unfold masked_at, Qltb. apply negb_true_iff.
  destruct (Qle_bool p (random (drop i g)).1) eqn:E; [|done].
  apply Qle_bool_iff in E. pose proof (random_lt_1 (drop i g)) as Hlt.
  exfalso. apply (Qlt_irrefl 1).
  eapply Qle_lt_trans; [exact Hp|]. eapply Qle_lt_trans; [exact E|exact Hlt].
Qed.

Lemma masked_at_le_0 p g i : (p <= 0)%Q → masked_at p g i = false.
Proof.
  intros Hp. unfold masked_at, Qltb. apply negb_false_iff, Qle_bool_iff.
  eapply Qle_trans; [exact Hp|apply random_ge_0].
Qed.

(** X8: in probabilistic mode a mask_prob of 1 or more masks every token:
    the result is all mask-tokens, labelled with the ids of the original
    tokens (the unknown-token's id for a token not in the vocabulary). *)
Theorem mask_prob_one_masks_everything docs V lc tk (tokens : list string)
    (p : Q) (g : tape) :
  Tokenizer_init docs V lc = Ok tk →
  (1 <= p)%Q →
  ∃ unk, vocab tk !! UNK = Some unk ∧
    random_word tokens tk p g =
      Ok (replicate (length tokens) MASK,
          (λ t, Z.of_nat (default unk (vocab tk !! t))) <$> tokens,
          drop (length tokens) g).
Proof.
  intros Hinit Hp. apply Tokenizer_init_Ok in Hinit as (kept & Hb & _).
  pose proof (vocab_UNK _ _ Hb) as Hunk.
  destruct (random_word_loop_spec _ _ p Hunk tokens g)
    as (toks & labels & Hrw & Hlt & Hll & Hspec).
  exists (length kept). split; [done|].
  assert (Qeq_bool p (-1) = false) as Hne.
  { destruct (Qeq_bool p (-1)) eqn:E; [|done]. apply Qeq_bool_iff in E.
    rewrite E in Hp. by vm_compute in Hp. }
  unfold random_word. rewrite Hne, Hrw. do 3 f_equal.
  - apply list_eq. intros i. destruct (tokens !! i) as [t|] eqn:Ht.
    + destruct (Hspec i t Ht) as [-> _]. rewrite masked_at_ge_1 by done.
      symmetry. apply lookup_replicate_2. by eapply lookup_lt_Some.
    + apply lookup_ge_None in Ht. rewrite !lookup_ge_None_2; [done|..].
      * rewrite length_replicate. lia.
      * lia.
  - apply list_eq. intros i. rewrite list_lookup_fmap.
    destruct (tokens !! i) as [t|] eqn:Ht.
    + destruct (Hspec i t Ht) as [_ ->]. by rewrite masked_at_ge_1.
    + apply lookup_ge_None in Ht. rewrite lookup_ge_None_2; [done|lia].
Qed.

Lemma mask_prob_one_masks_everything_witness :
  Tokenizer_init docs3 100 true = Ok docs3_tokenizer ∧
  (1 <= 1)%Q ∧
  ∃ unk, vocab docs3_tokenizer !! UNK = Some unk ∧
    random_word ["dog"; "fish"] docs3_tokenizer 1 [7%N] =
      Ok (replicate (length ["dog"; "fish"]) MASK,
          (λ t, Z.of_nat (default unk (vocab docs3_tokenizer !! t))) <$> ["dog"; "fish"],
          drop (length ["dog"; "fish"]) [7%N]).
Proof.
  assert (Tokenizer_init docs3 100 true = Ok docs3_tokenizer) as Hinit
    by (vm_compute; reflexivity).
  assert (1 <= 1)%Q as Hp by apply Qle_refl.
  split; [exact Hinit|]. split; [exact Hp|].
  exact (mask_prob_one_masks_everything docs3 100 true docs3_tokenizer
           ["dog"; "fish"] 1 [7%N] Hinit Hp).
Defined.

(** X9: in probabilistic mode a mask_prob of 0 or less (other than -1)
    masks nothing: the tokens come back unchanged, every label is -1, and
    one draw per token is still used. *)
Theorem mask_prob_zero_masks_nothing docs V lc tk (tokens : list string)
    (p : Q) (g : tape) :
  Tokenizer_init docs V lc = Ok tk →
  (p <= 0)%Q → Qeq_bool p (-1) = false →
  random_word tokens tk p g =
    Ok (tokens, replicate (length tokens) (-1), drop (length tokens) g).
Proof.
  intros Hinit Hp Hne. apply Tokenizer_init_Ok in Hinit as (kept & Hb & _).
  pose proof (vocab_UNK _ _ Hb) as Hunk.
  destruct (random_word_loop_spec _ _ p Hunk tokens g)
    as (toks & labels & Hrw & Hlt & Hll & Hspec).
  unfold random_word. rewrite Hne, Hrw. do 3 f_equal.
  - apply list_eq. intros i. destruct (tokens !! i) as [t|] eqn:Ht.
    + destruct (Hspec i t Ht) as [-> _]. by rewrite masked_at_le_0.
    + apply lookup_ge_None in Ht. rewrite lookup_ge_None_2; [done|lia].
  - apply list_eq. intros i. destruct (tokens !! i) as [t|] eqn:Ht.
    + destruct (Hspec i t Ht) as [_ ->]. rewrite masked_at_le_0 by done.
      symmetry. apply lookup_replicate_2. by eapply lookup_lt_Some.
    + apply lookup_ge_None in Ht. rewrite !lookup_ge_None_2; [done|..].
      * rewrite length_replicate. lia.
      * lia.
Qed.

Lemma mask_prob_zero_masks_nothing_witness :
  Tokenizer_init docs3 100 true = Ok docs3_tokenizer ∧
  (0 <= 0)%Q ∧ Qeq_bool 0 (-1) = false ∧
  random_word ["dog"; "fish"] docs3_tokenizer 0 [7%N] =
    Ok (["dog"; "fish"], replicate (length ["dog"; "fish"]) (-1),
        drop (length ["dog"; "fish"]) [7%N]).
Proof.
  assert (Tokenizer_init docs3 100 true = Ok docs3_tokenizer) as Hinit
    by (vm_compute; reflexivity).
  assert (0 <= 0)%Q as Hp by apply Qle_refl.
  split; [exact Hinit|]. split; [exact Hp|]. split; [reflexivity|].
  exact (mask_prob_zero_masks_nothing docs3 100 true docs3_tokenizer
           ["dog"; "fish"] 0 [7%N] Hinit Hp eq_refl).
Defined.

(** ** The encoder on the real positions and at the bounds *)

(** X10: for a constructed tokenizer, a non-negative max_seq_length and a
    label list parallel to the tokens, every position below both the number
    of tokens and max_seq_length holds the id of its token (the
    unknown-token's id for a token not in the vocabulary), input_mask 1,
    the document id and the label given for it: truncation keeps the head
    of the four sequences. *)
Theorem encoded_real_positions docs V lc tk tokens labels (d : nat) (L : Z) :
  Tokenizer_init docs V lc = Ok tk →
  0 ≤ L →
  length labels = length tokens →
  ∃ f unk,
    encode_features tk tokens labels d L = Ok f ∧
    vocab tk !! UNK = Some unk ∧
    ∀ i t l, Z.of_nat i < L → tokens !! i = Some t → labels !! i = Some l →
      input_ids f !! i = Some (Z.of_nat (default unk (vocab tk !! t))) ∧
      input_mask f !! i = Some 1 ∧
      doc_id f !! i = Some (Z.of_nat d) ∧
      lm_label_ids f !! i = Some l.
Proof.
  intros Hinit HL Hlen.
  apply Tokenizer_init_Ok in Hinit as (kept & Hb & _).
  eexists _, (length kept).
  split; [by apply (encode_features_built _ _ _ _ _ _ Hb)|].
  split; [by apply vocab_UNK|].
  intros i t l Hi Ht Hl. pose proof (lookup_lt_Some _ _ _ Ht) as Hlt.
  simpl.
  rewrite !pad_to_lookup_lt by (rewrite ?length_fmap, ?length_replicate; lia).
  rewrite !list_lookup_fmap, Ht, Hl. simpl.
  rewrite !lookup_replicate_2 by lia. done.
Qed.

Lemma encoded_real_positions_witness :
  Tokenizer_init docs3 100 true = Ok docs3_tokenizer ∧
  0 ≤ 2 ∧
  length [-1; 4; -1] = length ["dog"; MASK; "fish"] ∧
  ∃ f unk,
    encode_features docs3_tokenizer ["dog"; MASK; "fish"] [-1; 4; -1] 7 2 = Ok f ∧
    vocab docs3_tokenizer !! UNK = Some unk ∧
    ∀ i t l, Z.of_nat i < 2 → ["dog"; MASK; "fish"] !! i = Some t →
      [-1; 4; -1] !! i = Some l →
      input_ids f !! i = Some (Z.of_nat (default unk (vocab docs3_tokenizer !! t))) ∧
      input_mask f !! i = Some 1 ∧
      doc_id f !! i = Some (Z.of_nat 7) ∧
      lm_label_ids f !! i = Some l.
Proof.
  assert (Tokenizer_init docs3 100 true = Ok docs3_tokenizer) as Hinit
    by (vm_compute; reflexivity).
  split; [exact Hinit|]. split; [lia|]. split; [reflexivity|].
  apply (encoded_real_positions docs3 100 true docs3_tokenizer); [exact Hinit|lia|reflexivity].
Defined.

(** X11: with a negative max_seq_length the encoder neither pads nor keeps
    the requested length: it drops the last |max_seq_length| positions of
    the four sequences (all of them when there are fewer). *)
Theorem negative_max_seq_length_drops_tail docs V lc tk tokens labels (d : nat) (L : Z) :
  Tokenizer_init docs V lc = Ok tk →
  L < 0 →
  length labels = length tokens →
  ∃ f ids,
    convert_tokens_to_ids tk tokens = Ok ids ∧
    encode_features tk tokens labels d L = Ok f ∧
    input_ids f = take (Z.to_nat (Z.of_nat (length tokens) + L)) (Z.of_nat <$> ids) ∧
    input_mask f = replicate (Z.to_nat (Z.of_nat (length tokens) + L)) 1 ∧
    doc_id f = replicate (Z.to_nat (Z.of_nat (length tokens) + L)) (Z.of_nat d) ∧
    lm_label_ids f = take (Z.to_nat (Z.of_nat (length tokens) + L)) labels.
Proof.
  intros Hinit HL Hlen.
  apply Tokenizer_init_Ok in Hinit as (kept & Hb & _).
  exists (pad_loop (Z.to_nat L) L
            (truncate L {| input_ids := Z.of_nat <$> (id_of tk (length kept) <$> tokens);
                           input_mask := replicate (length tokens) 1;
                           doc_id := replicate (length tokens) (Z.of_nat d);
                           lm_label_ids := labels |})),
         (id_of tk (length kept) <$> tokens).
  split; [by apply convert_tokens_to_ids_built|].
  split.
  { unfold encode_features. rewrite (convert_tokens_to_ids_built _ _ _ Hb). simpl.
    by rewrite !length_fmap. }
  replace (Z.to_nat L) with 0%nat by lia. simpl.
  unfold truncate, slice_to. simpl. rewrite !length_fmap, !length_replicate, Hlen.
  replace (L <? Z.of_nat (length tokens)) with true by lia.
  replace (L <? 0) with true by lia. simpl.
  rewrite !take_replicate.
  replace (Z.to_nat (Z.of_nat (length tokens) + L) `min` length tokens)%nat
    with (Z.to_nat (Z.of_nat (length tokens) + L)) by lia.
  done.
Qed.

Lemma negative_max_seq_length_drops_tail_witness :
  Tokenizer_init docs3 100 true = Ok docs3_tokenizer ∧
  -1 < 0 ∧
  length [-1; 4; -1] = length ["dog"; MASK; "cat"] ∧
  ∃ f ids,
    convert_tokens_to_ids docs3_tokenizer ["dog"; MASK; "cat"] = Ok ids ∧
    encode_features docs3_tokenizer ["dog"; MASK; "cat"] [-1; 4; -1] 7 (-1) = Ok f ∧
    input_ids f = take (Z.to_nat (Z.of_nat (length ["dog"; MASK; "cat"]) + -1))
                    (Z.of_nat <$> ids) ∧
    input_mask f = replicate (Z.to_nat (Z.of_nat (length ["dog"; MASK; "cat"]) + -1)) 1 ∧
    doc_id f = replicate (Z.to_nat (Z.of_nat (length ["dog"; MASK; "cat"]) + -1))
                 (Z.of_nat 7) ∧
    lm_label_ids f = take (Z.to_nat (Z.of_nat (length ["dog"; MASK; "cat"]) + -1))
                       [-1; 4; -1].
Proof.
  assert (Tokenizer_init docs3 100 true = Ok docs3_tokenizer) as Hinit
    by (vm_compute; reflexivity).
  split; [exact Hinit|]. split; [lia|]. split; [reflexivity|].
  apply (negative_max_seq_length_drops_tail docs3 100 true docs3_tokenizer);
    [exact Hinit|lia|reflexivity].
Defined.

(** ** When the sample provider succeeds, and what it returns *)

Lemma encode_features_Ok_built kept tk tokens labels d L :
  built_from kept tk → ∃ f, encode_features tk tokens labels d L = Ok f.
Proof.
  intros Hb. unfold encode_features.
  rewrite (convert_tokens_to_ids_built _ _ _ Hb). simpl. by eexists.
Qed.

(** X12: on a dataset with a constructed tokenizer and for an index of a
    document, access succeeds in probabilistic mode whatever the document;
    in single-token mode it succeeds exactly when at least one token of
    the document passes the vocabulary filter, and raises ValueError when
    none does (an empty document, or one made of unknown words and of the
    word with id 0). *)
Theorem getitem_outcome docs V lc tk ds (p : Q) (item : nat) doc (g : tape) :
  Tokenizer_init docs V lc = Ok tk →
  tokenizer ds = Some tk →
  all_docs ds !! item = Some doc →
  (Qeq_bool p (-1) = true → keep_in_vocab tk doc = [] →
     ∃ msg, getitem ds p item g = Err (ValueError msg)) ∧
  (Qeq_bool p (-1) = true → keep_in_vocab tk doc ≠ [] →
     ∃ f, getitem ds p item g = Ok (f, bump_counter ds, (draw g).2)) ∧
  (Qeq_bool p (-1) = false →
     ∃ f, getitem ds p item g =
            Ok (f, bump_counter ds, drop (length (keep_in_vocab tk doc)) g)).
Proof.
  intros Hinit Htk Hdoc. apply Tokenizer_init_Ok in Hinit as (kept & Hb & _).
  unfold getitem, convert_example_to_features. rewrite Htk, Hdoc. simpl.
  split; [|split].
  - intros Hp Hnil. rewrite Hnil.
    destruct (random_word_single_empty tk p g Hp) as [msg ->]. by exists msg.
  - intros Hp Hne. rewrite (random_word_single _ _ _ _ _ Hb Hp Hne). simpl.
    match goal with |- context [encode_features ?a ?b ?c ?d ?e] =>
      destruct (encode_features_Ok_built _ a b c d e Hb) as [f ->] end.
    by exists f.
  - intros Hp. pose proof (vocab_UNK _ _ Hb) as Hunk.
    destruct (random_word_loop_spec _ _ p Hunk (keep_in_vocab tk doc) g)
      as (toks & labels & Hrw & _).
    unfold random_word. rewrite Hp, Hrw. simpl.
    match goal with |- context [encode_features ?a ?b ?c ?d ?e] =>
      destruct (encode_features_Ok_built _ a b c d e Hb) as [f ->] end.
    by exists f.
Qed.

Lemma getitem_outcome_witness :
  Tokenizer_init docs3 100 true = Ok docs3_tokenizer ∧
  tokenizer docs3_dataset = Some docs3_tokenizer ∧
  all_docs docs3_dataset !! 2%nat = Some "bird bird cat" ∧
  (Qeq_bool (-1) (-1) = true → keep_in_vocab docs3_tokenizer "bird bird cat" = [] →
     ∃ msg, getitem docs3_dataset (-1) 2 [5%N] = Err (ValueError msg)) ∧
  (Qeq_bool (-1) (-1) = true → keep_in_vocab docs3_tokenizer "bird bird cat" ≠ [] →
     ∃ f, getitem docs3_dataset (-1) 2 [5%N]
          = Ok (f, bump_counter docs3_dataset, (draw [5%N]).2)) ∧
  (Qeq_bool (-1) (-1) = false →
     ∃ f, getitem docs3_dataset (-1) 2 [5%N] =
            Ok (f, bump_counter docs3_dataset,
                drop (length (keep_in_vocab docs3_tokenizer "bird bird cat")) [5%N])).
Proof.
  assert (Tokenizer_init docs3 100 true = Ok docs3_tokenizer) as Hinit
    by (vm_compute; reflexivity).
  split; [exact Hinit|]. split; [reflexivity|]. split; [reflexivity|].
  exact (getitem_outcome docs3 100 true docs3_tokenizer docs3_dataset (-1)%Q 2%nat
           "bird bird cat" [5%N] Hinit eq_refl eq_refl).
Defined.

(** X13: every successful access returns four sequences of length seq_len
    (when seq_len is not negative) and advances the access counter by one;
    the documents, the tokenizer and seq_len of the dataset are unchanged. *)
Theorem getitem_shape_and_frame ds (p : Q) (item : nat) (g : tape) f ds' g' :
  getitem ds p item g = Ok (f, ds', g') →
  0 ≤ seq_len ds →
  (Z.of_nat (length (input_ids f)) = seq_len ds ∧
   Z.of_nat (length (input_mask f)) = seq_len ds ∧
   Z.of_nat (length (doc_id f)) = seq_len ds ∧
   Z.of_nat (length (lm_label_ids f)) = seq_len ds) ∧
  sample_counter ds' = S (sample_counter ds) ∧
  all_docs ds' = all_docs ds ∧ tokenizer ds' = tokenizer ds ∧
  seq_len ds' = seq_len ds ∧ num_docs ds' = num_docs ds.
Proof.
  intros Hget HL.
  apply getitem_Ok in Hget as (tk & doc & toks & labels & _ & _ & Hrw & Henc & ->).
  split; [|done].
  apply random_word_out in Hrw as (Hlt & Hll & _).
  unfold encode_features in Henc.
  destruct (convert_tokens_to_ids tk toks) as [ids|] eqn:Hids; simpl in Henc; [|done].
  apply mapM_Ok_length in Hids. injection Henc as <-.
  rewrite encode_loop_spec; [|done|].
  - simpl. rewrite !length_pad_to. lia.
  - unfold same_lengths. simpl. rewrite !length_fmap, !length_replicate. lia.
Qed.

Lemma getitem_shape_and_frame_witness :
  ∃ f ds' g',
    getitem docs3_dataset (1 # 2) 1 [0%N; (2 ^ 52)%N] = Ok (f, ds', g') ∧
    0 ≤ seq_len docs3_dataset ∧
    (Z.of_nat (length (input_ids f)) = seq_len docs3_dataset ∧
     Z.of_nat (length (input_mask f)) = seq_len docs3_dataset ∧
     Z.of_nat (length (doc_id f)) = seq_len docs3_dataset ∧
     Z.of_nat (length (lm_label_ids f)) = seq_len docs3_dataset) ∧
    sample_counter ds' = S (sample_counter docs3_dataset) ∧
    all_docs ds' = all_docs docs3_dataset ∧ tokenizer ds' = tokenizer docs3_dataset ∧
    seq_len ds' = seq_len docs3_dataset ∧ num_docs ds' = num_docs docs3_dataset.
Proof.
  destruct (getitem docs3_dataset (1 # 2) 1 [0%N; (2 ^ 52)%N]) as [[[f ds'] g']|] eqn:Hget;
    [|vm_compute in Hget; discriminate Hget].
  assert (0 ≤ seq_len docs3_dataset) as HL by (simpl; lia).
  exists f, ds', g'. split; [reflexivity|]. split; [exact HL|].
  exact (getitem_shape_and_frame docs3_dataset (1 # 2)%Q 1%nat [0%N; (2 ^ 52)%N]
           f ds' g' Hget HL).
Defined.

(** ** Labels and mask-tokens go together *)

Lemma keep_in_vocab_ordinary kept tk doc t :
  built_from kept tk → t ∈ keep_in_vocab tk doc →
  ∃ j, vocab tk !! t = Some j ∧ (1 ≤ j < length kept)%nat ∧ t ≠ MASK ∧ t ≠ UNK.
Proof.
  intros Hb Ht. apply keep_in_vocab_spec in Ht as [Htok (j & Hj & Hne)].
  pose proof (tokenize_alphabetic _ _ Htok) as Ha.
  pose proof (alphabetic_not_MASK _ Ha) as HM.
  pose proof (alphabetic_not_UNK _ Ha) as HU.
  exists j. split; [done|]. split; [|done].
  apply (vocab_lookup _ _ _ _ Hb) in Hj as [Hk|[[? _]|[? _]]]; [|done..].
  apply lookup_lt_Some in Hk. lia.
Qed.

Lemma id_of_MASK_iff kept tk t :
  built_from kept tk → id_of tk (length kept) t = S (length kept) ↔ t = MASK.
Proof.
  intros Hb. unfold id_of. split.
  - destruct (vocab tk !! t) as [j|] eqn:Hj; simpl; [|lia].
    intros ->. apply (vocab_lookup _ _ _ _ Hb) in Hj as [Hk|[[_ ?]|[? _]]]; [|lia|done].
    apply lookup_lt_Some in Hk. lia.
  - intros ->. by rewrite (vocab_MASK _ _ Hb).
Qed.

(** Both modes mark exactly the positions they overwrite. *)
Lemma random_word_marks kept tk tokens p g toks labels g' :
  built_from kept tk → Forall (λ t, t ≠ MASK) tokens →
  random_word tokens tk p g = Ok (toks, labels, g') →
  length toks = length tokens ∧ length labels = length tokens ∧
  ∀ i t' l, toks !! i = Some t' → labels !! i = Some l → (l ≠ -1 ↔ t' = MASK).
Proof.
  intros Hb Hnm Hrw. destruct (Qeq_bool p (-1)) eqn:Hp.
  - destruct tokens as [|t0 tokens'] eqn:Htok.
    { destruct (random_word_single_empty tk p g Hp) as [msg Hmsg]. congruence. }
    rewrite <- Htok in *.
    assert (tokens ≠ []) as Hne by (by rewrite Htok).
    rewrite (random_word_single _ _ _ _ _ Hb Hp Hne) in Hrw.
    injection Hrw as <- <- <-.
    rewrite !length_insert, length_replicate. split; [done|]. split; [done|].
    intros i t' l Ht' Hl.
    assert (mask_index_of g (length tokens) < length tokens)%nat as Hmi.
    { apply mask_index_of_lt. rewrite Htok. simpl. lia. }
    destruct (decide (mask_index_of g (length tokens) = i)) as [<-|Hi].
    + rewrite list_lookup_insert_eq in Ht' by exact Hmi.
      rewrite list_lookup_insert_eq in Hl by (by rewrite length_replicate).
      injection Ht' as <-. injection Hl as <-. split; [done|]. lia.
    + rewrite list_lookup_insert_ne in Ht' by done.
      rewrite list_lookup_insert_ne in Hl by done.
      apply lookup_replicate in Hl as [-> _].
      pose proof (Forall_lookup_1 _ _ _ _ Hnm Ht') as Hne'. simpl in Hne'.
      split; [done|]. intros ->. done.
  - pose proof (vocab_UNK _ _ Hb) as Hunk.
    destruct (random_word_loop_spec _ _ p Hunk tokens g)
      as (toks0 & labels0 & Hrw0 & Hlt & Hll & Hspec).
    unfold random_word in Hrw. rewrite Hp, Hrw0 in Hrw. injection Hrw as <- <- <-.
    split; [done|]. split; [done|].
    intros i t' l Ht' Hl.
    destruct (lookup_lt_is_Some_2 tokens i) as [t Ht].
    { rewrite <- Hlt. by eapply lookup_lt_Some. }
    destruct (Hspec i t Ht) as [Ht0 Hl0].
    rewrite Ht0 in Ht'. rewrite Hl0 in Hl. injection Ht' as <-. injection Hl as <-.
    pose proof (Forall_lookup_1 _ _ _ _ Hnm Ht) as Hne'. simpl in Hne'.
    destruct (masked_at p g i); split; try done; lia.
Qed.

(** X14: in every Feature that the sample provider produces, in either
    masking mode, a position with input_mask 1 carries a label other than
    -1 exactly when its input id is the id of the mask-token. *)
Theorem labels_sit_on_mask_tokens docs V lc tk ds (p : Q) (item : nat) (g : tape)
    f ds' g' :
  Tokenizer_init docs V lc = Ok tk →
  tokenizer ds = Some tk →
  0 ≤ seq_len ds →
  getitem ds p item g = Ok (f, ds', g') →
  ∃ m, vocab tk !! MASK = Some m ∧
    ∀ i x l, input_mask f !! i = Some 1 → input_ids f !! i = Some x →
             lm_label_ids f !! i = Some l → (l ≠ -1 ↔ x = Z.of_nat m).
Proof.
  intros Hinit Htk HL Hget.
  apply Tokenizer_init_Ok in Hinit as (kept & Hb & _).
  exists (S (length kept)). split; [by apply vocab_MASK|].
  apply getitem_Ok in Hget as (tk' & doc & toks & labels & Htk' & Hdoc & Hrw & Henc & _).
  assert (tk' = tk) as -> by congruence.
  apply (random_word_marks _ _ _ _ _ _ _ _ Hb) in Hrw as (Hlt & Hll & Hmarks).
  2:{ apply Forall_forall. intros t Ht.
      by destruct (keep_in_vocab_ordinary _ _ _ _ Hb Ht) as (_ & _ & _ & ? & _). }
  rewrite (encode_features_built _ _ _ _ _ _ Hb) in Henc by (done || lia).
  injection Henc as <-. simpl.
  intros i x l Hm Hx Hl.
  assert (i < Z.to_nat (seq_len ds))%nat as HiL.
  { apply lookup_lt_Some in Hm. by rewrite length_pad_to in Hm. }
  destruct (decide (i < length toks)%nat) as [Hi|Hi].
  - rewrite pad_to_lookup_lt in Hx by (rewrite ?length_fmap; lia).
    rewrite pad_to_lookup_lt in Hl by lia.
    rewrite !list_lookup_fmap in Hx.
    destruct (toks !! i) as [t'|] eqn:Ht'; simpl in Hx; [|done].
    injection Hx as <-. rewrite (Hmarks i t' l Ht' Hl).
    rewrite <- (id_of_MASK_iff _ _ t' Hb). lia.
  - rewrite pad_to_lookup_ge in Hm by (rewrite ?length_replicate; lia). done.
Qed.

Lemma labels_sit_on_mask_tokens_witness :
  Tokenizer_init docs3 100 true = Ok docs3_tokenizer ∧
  tokenizer docs3_dataset = Some docs3_tokenizer ∧
  0 ≤ seq_len docs3_dataset ∧
  ∃ f ds' g',
    getitem docs3_dataset (-1) 1 [1%N] = Ok (f, ds', g') ∧
    ∃ m, vocab docs3_tokenizer !! MASK = Some m ∧
      ∀ i x l, input_mask f !! i = Some 1 → input_ids f !! i = Some x →
               lm_label_ids f !! i = Some l → (l ≠ -1 ↔ x = Z.of_nat m).
Proof.
  assert (Tokenizer_init docs3 100 true = Ok docs3_tokenizer) as Hinit
    by (vm_compute; reflexivity).
  assert (0 ≤ seq_len docs3_dataset) as HL by (simpl; lia).
  split; [exact Hinit|]. split; [reflexivity|]. split; [exact HL|].
  destruct (getitem docs3_dataset (-1) 1 [1%N]) as [[[f ds'] g']|] eqn:Hget;
    [|vm_compute in Hget; discriminate Hget].
  exists f, ds', g'. split; [reflexivity|].
  exact (labels_sit_on_mask_tokens docs3 100 true docs3_tokenizer docs3_dataset
           (-1)%Q 1%nat [1%N] f ds' g' Hinit eq_refl HL Hget).
Defined.

Lemma slice_to_Forall {A} (P : A → Prop) n l : Forall P l → Forall P (slice_to n l).
Proof. intros H. unfold slice_to. destruct (n <? 0); by apply Forall_take. Qed.

Lemma truncate_labels_Forall (P : Z → Prop) L f :
  Forall P (lm_label_ids f) → Forall P (lm_label_ids (truncate L f)).
Proof.
  unfold truncate. intros H. destruct (L <? _); [|done]. simpl.
  by apply slice_to_Forall.
Qed.

Lemma pad_loop_labels_Forall (P : Z → Prop) L : ∀ fuel f,
  P (-1) → Forall P (lm_label_ids f) → Forall P (lm_label_ids (pad_loop fuel L f)).
Proof.
  induction fuel as [|fuel IH]; intros f HP H; simpl; [done|].
  destruct (_ <? L); [|done]. apply IH; [done|]. simpl.
  apply Forall_app. split; [done|]. by constructor.
Qed.

(** X15: in probabilistic mode every label of a produced Feature is -1 or
    the id of an ordinary word of the document, from 1 to below the id of
    the unknown-token: through the sample provider the fallback to the
    unknown-token's id is never taken, and no label is 0. *)
Theorem probabilistic_labels_are_ordinary_ids docs V lc tk ds (p : Q) (item : nat)
    (g : tape) f ds' g' :
  Tokenizer_init docs V lc = Ok tk →
  tokenizer ds = Some tk →
  Qeq_bool p (-1) = false →
  getitem ds p item g = Ok (f, ds', g') →
  ∃ unk, vocab tk !! UNK = Some unk ∧
    Forall (λ l, l = -1 ∨ 1 ≤ l < Z.of_nat unk) (lm_label_ids f).
Proof.
  intros Hinit Htk Hp Hget.
  apply Tokenizer_init_Ok in Hinit as (kept & Hb & _).
  pose proof (vocab_UNK _ _ Hb) as Hunk.
  exists (length kept). split; [done|].
  apply getitem_Ok in Hget as (tk' & doc & toks & labels & Htk' & Hdoc & Hrw & Henc & _).
  assert (tk' = tk) as -> by congruence.
  destruct (random_word_loop_spec _ _ p Hunk (keep_in_vocab tk doc) g)
    as (toks0 & labels0 & Hrw0 & Hlt & Hll & Hspec).
  unfold random_word in Hrw. rewrite Hp, Hrw0 in Hrw. injection Hrw as <- <- <-.
  assert (Forall (λ l, l = -1 ∨ 1 ≤ l < Z.of_nat (length kept)) labels0) as Hlab.
  { apply Forall_lookup. intros i l Hl.
    destruct (lookup_lt_is_Some_2 (keep_in_vocab tk doc) i) as [t Ht].
    { rewrite <- Hll. by eapply lookup_lt_Some. }
    destruct (Hspec i t Ht) as [_ Hl0]. rewrite Hl0 in Hl. injection Hl as <-.
    destruct (masked_at p g i); [|auto].
    destruct (keep_in_vocab_ordinary _ _ _ _ Hb (list_elem_of_lookup_2 _ _ _ Ht))
      as (j & -> & Hj & _).
    simpl. right. lia. }
  unfold encode_features in Henc.
  rewrite (convert_tokens_to_ids_built _ _ _ Hb) in Henc. simpl in Henc.
  injection Henc as <-.
  apply pad_loop_labels_Forall; [auto|]. by apply truncate_labels_Forall.
Qed.

Lemma probabilistic_labels_are_ordinary_ids_witness :
  Tokenizer_init docs3 100 true = Ok docs3_tokenizer ∧
  tokenizer docs3_dataset = Some docs3_tokenizer ∧
  Qeq_bool 1 (-1) = false ∧
  ∃ f ds' g',
    getitem docs3_dataset 1 1 [3%N; 4%N] = Ok (f, ds', g') ∧
    ∃ unk, vocab docs3_tokenizer !! UNK = Some unk ∧
      Forall (λ l, l = -1 ∨ 1 ≤ l < Z.of_nat unk) (lm_label_ids f).
Proof.
  assert (Tokenizer_init docs3 100 true = Ok docs3_tokenizer) as Hinit
    by (vm_compute; reflexivity).
  split; [exact Hinit|]. split; [reflexivity|]. split; [reflexivity|].
  destruct (getitem docs3_dataset 1 1 [3%N; 4%N]) as [[[f ds'] g']|] eqn:Hget;
    [|vm_compute in Hget; discriminate Hget].
  exists f, ds', g'. split; [reflexivity|].
  exact (probabilistic_labels_are_ordinary_ids docs3 100 true docs3_tokenizer docs3_dataset
           1%Q 1%nat [3%N; 4%N] f ds' g' Hinit eq_refl eq_refl Hget).
Defined.

(** ** The entity weights *)

Lemma weigh_nothing w : ∀ (l : list nat) ws,
  foldl (weigh [] w) (Ok ws) l = Ok ws.
Proof.
  induction l as [|x l IH]; intros ws; [done|]. cbn [foldl].
  assert (weigh [] w (Ok ws) x = Ok ws) as ->; [|apply IH].
  unfold weigh. simpl. by rewrite ?bool_decide_eq_false_2 by apply not_elem_of_nil.
Qed.

(** X16: without entities (None or an empty list) the builder stores the
    vector of len(vocab) ones and touches no set of the caller. *)
Theorem no_entities_all_ones ds v (entities : option (list Entity)) (w : Q) (h : heap) :
  ds_vocab ds = Some v →
  entities = None ∨ entities = Some [] →
  set_entities_weight ds entities w h
    = Ok (set_ent_weights ds (replicate (size v) 1%Q), h).
Proof.
  intros Hv Hent. unfold set_entities_weight.
  assert (match entities with
          | Some (e :: es) =>
              let '(h', ents) := foldl collect_entity (h, ∅) (e :: es) in
              tk ← match tokenizer ds with
                   | Some tk => Ok tk
                   | None => Err AttributeError
                   end;
              ids ← convert_tokens_to_ids tk (tokenize (Str.join " " (elements ents)));
              Ok (ids, h')
          | _ => Ok ([], h)
          end = Ok ([], h)) as ->.
  { by destruct Hent as [->| ->]. }
  simpl. rewrite Hv. simpl. by rewrite weigh_nothing.
Qed.

Lemma no_entities_all_ones_witness :
  ds_vocab docs3_dataset = Some (vocab docs3_tokenizer) ∧
  (@Some (list Entity) [] = None ∨ @Some (list Entity) [] = Some []) ∧
  set_entities_weight docs3_dataset (Some []) 3 entity_heap
    = Ok (set_ent_weights docs3_dataset (replicate (size (vocab docs3_tokenizer)) 1%Q),
          entity_heap).
Proof.
  split; [reflexivity|]. split; [by right|].
  apply (no_entities_all_ones docs3_dataset (vocab docs3_tokenizer) (Some []) 3 entity_heap);
    [reflexivity|by right].
Defined.




Example cat_weights :
  (ent_weights ∘ fst) <$> set_entities_weight docs3_dataset (Some [mkEntity 0 1]) 3 cat_heap
    = Ok (Some [1; 3; 1; 1; 1]%Q).
Proof. vm_compute. reflexivity. Qed.

(** ** The sweep: set-up errors, batch size, trace *)

Lemma set_entities_weight_None_heap ds w h ds' h' :
  set_entities_weight ds None w h = Ok (ds', h') → h' = h.
Proof.
  unfold set_entities_weight. simpl.
  destruct (ds_vocab ds) as [v|]; simpl; [|done].
  destruct (foldl _ _ _) as [ws|]; simpl; [|done].
  by intros [= <- <-].
Qed.

Section sweep_effects.
Variable epoch : Q → nat → MyDataset → result pyval.
Variable args : Args.
Variable dataset : dataset_arg.

Lemma epochs_loop_effect p ds : ∀ n k scores st,
  st_batch_size (epochs_loop epoch p ds k n scores st).2 = st_batch_size st ∧
  st_heap (epochs_loop epoch p ds k n scores st).2 = st_heap st ∧
  st_best_scores (epochs_loop epoch p ds k n scores st).2 = st_best_scores st ∧
  ∃ m, (m ≤ n)%nat ∧
    st_epochs (epochs_loop epoch p ds k n scores st).2
      = st_epochs st ++ ((λ j, (p, j)) <$> seq k m) ∧
    (∀ x, (epochs_loop epoch p ds k n scores st).1 = Ok x → m = n).
Proof.
  induction n as [|n IH]; intros k scores st; simpl.
  - repeat split; try done. exists 0%nat. simpl. rewrite app_nil_r. by repeat split.
  - unfold mbind, St_bind, enter_epoch, lift. simpl.
    destruct (epoch p k ds) as [v|e] eqn:Hv; simpl.
    + match goal with |- context [epochs_loop epoch p ds (S k) n ?sc ?s] =>
        destruct (IH (S k) sc s) as (Hb & Hh & Hbest & m & Hm & Hep & HOk) end.
      simpl in *. rewrite Hb, Hh, Hbest. repeat split; try done.
      exists (S m). split; [lia|]. split.
      * rewrite Hep. simpl. by rewrite <- app_assoc.
      * intros x Hx. by rewrite (HOk x Hx).
    + repeat split; try done. exists 1%nat. split; [lia|]. split; [done|]. done.
Qed.

Lemma main_config_effect p st :
  ∃ m, (m ≤ int_range (num_train_epochs args))%nat ∧
    st_epochs (main_config epoch args dataset p st).2 = st_epochs st ++ epochs_of m p ∧
    st_batch_size (main_config epoch args dataset p st).2 =
      (if gradient_accumulation_steps args <? 1 then st_batch_size st
       else st_batch_size st `div` gradient_accumulation_steps args) ∧
    (weighted args = false → st_heap (main_config epoch args dataset p st).2 = st_heap st) ∧
    (∀ e, (main_config epoch args dataset p st).1 = Err e →
          st_best_scores (main_config epoch args dataset p st).2 = st_best_scores st) ∧
    ((main_config epoch args dataset p st).1 = Ok tt →
       m = int_range (num_train_epochs args)).
Proof.
  unfold main_config, mbind, St_bind, mret, St_ret, raise, lift,
    get_state, set_batch_size, set_heap, append_best, epochs_of; simpl.
  destruct (gradient_accumulation_steps args <? 1); simpl.
  { exists 0%nat. simpl. rewrite app_nil_r. repeat split; try done; lia. }
  destruct (do_train args); simpl.
  2:{ exists 0%nat. simpl. rewrite app_nil_r. repeat split; try done; lia. }
  destruct (MyDataset_init _ _) as [ds0|]; simpl.
  2:{ exists 0%nat. simpl. rewrite app_nil_r. repeat split; try done; lia. }
  destruct (_ =? 0); simpl.
  { exists 0%nat. simpl. rewrite app_nil_r. repeat split; try done; lia. }
  destruct (Tokenizer_init _ _ _) as [tk|]; simpl.
  2:{ exists 0%nat. simpl. rewrite app_nil_r. repeat split; try done; lia. }
  destruct (weighted args) eqn:Hw; [destruct dataset as [lines|data ents]|]; simpl.
  { exists 0%nat. simpl. rewrite app_nil_r. repeat split; try done; lia. }
  all: destruct (set_entities_weight _ _ _ _) as [[ds h']|] eqn:Hset; simpl.
  all: try (exists 0%nat; simpl; rewrite app_nil_r; repeat split; try done; lia).
  all: match goal with |- context [epochs_loop _ ?q ?d 0 ?n [] ?s] =>
         destruct (epochs_loop_effect q d n 0 [] s) as (Hb & Hh & Hbest & m & Hm & Hep & HOk);
         destruct (epochs_loop _ q d 0 n [] s) as [[scores|e] st1]
       end; simpl in *.
  all: try (destruct (mapM subscript1 scores) as [firsts|]; simpl;
            [destruct (py_max firsts) as [best|]; simpl|]).
  all: exists m; rewrite ?Hb, ?Hh, ?Hbest, ?Hep.
  all: repeat split; try done; try (intros; by eapply HOk).
  all: try (intros _; by apply set_entities_weight_None_heap in Hset).
Qed.

Lemma sweep_cons p ps st :
  sweep epoch args dataset (p :: ps) st =
  match main_config epoch args dataset p st with
  | (Ok _, st') => sweep epoch args dataset ps st'
  | (Err e, st') => (Err e, st')
  end.
Proof. reflexivity. Qed.


Lemma sweep_effect ps : ∀ st,
  (weighted args = false → st_heap (sweep epoch args dataset ps st).2 = st_heap st) ∧
  ((sweep epoch args dataset ps st).1 = Ok tt →
     (1 ≤ gradient_accumulation_steps args) ∨ ps = []) ∧
  ((sweep epoch args dataset ps st).1 = Ok tt →
     st_batch_size (sweep epoch args dataset ps st).2 =
       foldl (λ b _, b `div` gradient_accumulation_steps args) (st_batch_size st) ps ∧
     st_epochs (sweep epoch args dataset ps st).2 =
       st_epochs st ++ concat (epochs_of (int_range (num_train_epochs args)) <$> ps)).
Proof.
  induction ps as [|p ps IH]; intros st; simpl.
  - split; [done|]. split; [auto|]. intros _. by rewrite app_nil_r.
  - unfold mbind, St_bind.
    destruct (main_config_effect p st) as (m & _ & Hep & Hbatch & Hheap & _ & HOk).
    destruct (main_config epoch args dataset p st) as [[[]|e'] st1] eqn:Hcfg; simpl in *.
    + destruct (IH st1) as (IHheap & _ & IHok).
      split; [intros Hw; by rewrite IHheap, Hheap|].
      assert ((gradient_accumulation_steps args <? 1) = false) as Hgas.
      { revert Hcfg. unfold main_config, mbind, St_bind, raise. simpl.
        by destruct (gradient_accumulation_steps args <? 1). }
      split; [intros _; left; lia|].
      intros H. destruct (IHok H) as [-> ->].
      rewrite Hbatch, Hgas, Hep, (HOk eq_refl), <- app_assoc. done.
    + split; [done|]. split; done.
Qed.

End sweep_effects.

Lemma length_epochs n (ps : list Q) :
  length (concat (epochs_of n <$> ps)) = (length ps * n)%nat.
Proof.
  induction ps as [|p ps IH]; [done|].
  rewrite fmap_cons. change (concat (?x :: ?l)) with (x ++ concat l).
  rewrite length_app, IH. unfold epochs_of. rewrite length_fmap, length_seq.
  simpl. lia.
Qed.

(** X18: a gradient_accumulation_steps below 1 makes main raise ValueError
    at once: the batch size is not divided, no set of the caller is
    touched, no epoch is entered and no score recorded. *)
Theorem invalid_accumulation_steps_is_rejected epoch args dataset (h : heap) :
  gradient_accumulation_steps args < 1 →
  ∃ msg, main epoch args dataset h =
    (Err (ValueError msg),
     {| st_batch_size := train_batch_size args; st_heap := h;
        st_best_scores := []; st_epochs := [] |}).
Proof.
  intros Hgas. unfold main.
  assert (∃ p ps, probs args = p :: ps) as (p & ps & ->).
  { unfold probs. destruct (all_mask args); by eexists _, _. }
  simpl. unfold mbind at 1, St_bind at 1.
  unfold main_config, mbind, St_bind, raise. simpl.
  replace (gradient_accumulation_steps args <? 1) with true by lia.
  by eexists.
Qed.

Lemma invalid_accumulation_steps_is_rejected_witness :
  gradient_accumulation_steps (with_gas 0 2 sweep_args) < 1 ∧
  ∃ msg, main pair_epoch (with_gas 0 2 sweep_args) (DatasetObj docs3 None) ∅ =
    (Err (ValueError msg),
     {| st_batch_size := train_batch_size (with_gas 0 2 sweep_args); st_heap := ∅;
        st_best_scores := []; st_epochs := [] |}).
Proof.
  split; [simpl; lia|].
  apply (invalid_accumulation_steps_is_rejected pair_epoch (with_gas 0 2 sweep_args)
           (DatasetObj docs3 None) ∅).
  simpl; lia.
Defined.

(** X19: a sweep that completes has divided args.train_batch_size by
    gradient_accumulation_steps once per configuration, not once: the
    batch size after the sweep is the initial one divided repeatedly, as
    many times as there are configurations. *)
Theorem batch_size_is_divided_per_configuration epoch args dataset (h : heap) st :
  main epoch args dataset h = (Ok tt, st) →
  1 ≤ gradient_accumulation_steps args ∧
  st_batch_size st =
    foldl (λ b _, b `div` gradient_accumulation_steps args)
      (train_batch_size args) (probs args).
Proof.
  intros H. unfold main in H.
  set (st0 := mkMainState _ _ _ _) in H.
  destruct (sweep_effect epoch args dataset (probs args) st0) as (_ & Hgas & Hok).
  rewrite H in Hgas, Hok. simpl in Hgas, Hok.
  destruct (Hok eq_refl) as [Hb _]. split; [|exact Hb].
  destruct (Hgas eq_refl) as [?|Hnil]; [done|].
  unfold probs in Hnil. by destruct (all_mask args).
Qed.

Lemma batch_size_is_divided_per_configuration_witness :
  ∃ st,
    main pair_epoch (with_gas 2 1 sweep_args) (DatasetObj docs3 None) ∅ = (Ok tt, st) ∧
    st_batch_size st = 1 ∧
    1 ≤ gradient_accumulation_steps (with_gas 2 1 sweep_args) ∧
    st_batch_size st =
      foldl (λ b _, b `div` gradient_accumulation_steps (with_gas 2 1 sweep_args))
        (train_batch_size (with_gas 2 1 sweep_args)) (probs (with_gas 2 1 sweep_args)).
Proof.
  destruct (main pair_epoch (with_gas 2 1 sweep_args) (DatasetObj docs3 None) ∅)
    as [r st] eqn:H.
  assert (r = Ok tt) as -> by (vm_compute in H; congruence).
  exists st. split; [reflexivity|].
  split; [vm_compute in H; injection H as <-; reflexivity|].
  exact (batch_size_is_divided_per_configuration _ _ _ _ _ H).
Defined.

(** X20: a sweep that completes has entered, for each masking configuration
    in sweep order, the epochs 0 to int(num_train_epochs) - 1 in order, and
    nothing else: the evaluation hook runs once per epoch and
    configuration. *)
Theorem completed_sweep_trace epoch args dataset (h : heap) st :
  main epoch args dataset h = (Ok tt, st) →
  st_epochs st = concat (epochs_of (int_range (num_train_epochs args)) <$> probs args) ∧
  length (st_epochs st) =
    (length (probs args) * int_range (num_train_epochs args))%nat.
Proof.
  intros H. unfold main in H.
  set (st0 := mkMainState _ _ _ _) in H.
  destruct (sweep_effect epoch args dataset (probs args) st0) as (_ & _ & Hok).
  rewrite H in Hok. simpl in Hok. destruct (Hok eq_refl) as [_ ->].
  split; [done|]. simpl. apply length_epochs.
Qed.

Lemma completed_sweep_trace_witness :
  ∃ st,
    main pair_epoch sweep_args (DatasetObj docs3 None) ∅ = (Ok tt, st) ∧
    st_epochs st = concat (epochs_of (int_range (num_train_epochs sweep_args))
                             <$> probs sweep_args) ∧
    length (st_epochs st) =
      (length (probs sweep_args) * int_range (num_train_epochs sweep_args))%nat.
Proof.
  destruct (main pair_epoch sweep_args (DatasetObj docs3 None) ∅) as [r st] eqn:H.
  assert (r = Ok tt) as -> by (vm_compute in H; congruence).
  exists st. split; [reflexivity|].
  exact (completed_sweep_trace _ _ _ _ _ H).
Defined.

(** X21: when the evaluation hook never returns a value that can be
    indexed at 1 (a bare number or None), main cannot complete: it raises
    in its first configuration and records no best score. *)
Theorem unsubscriptable_hook_never_completes epoch args dataset (h : heap) :
  (∀ p k ds v x, epoch p k ds = Ok v → subscript1 v ≠ Ok x) →
  ∃ e, (main epoch args dataset h).1 = Err e ∧
       st_best_scores (main epoch args dataset h).2 = [].
Proof.
  intros Hhook. unfold main.
  set (st0 := mkMainState _ _ _ _).
  assert (∃ p ps, probs args = p :: ps) as (p & ps & ->).
  { unfold probs. destruct (all_mask args); by eexists _, _. }
  rewrite sweep_cons.
  destruct (main_config_effect epoch args dataset p st0) as (m & _ & _ & _ & _ & Herr & _).
  destruct (main_config epoch args dataset p st0) as [[[]|e] st1] eqn:Hcfg; simpl in *.
  - exfalso. apply main_config_Ok in Hcfg as (best & _ & ds & tk & firsts & _ & _ & _ & Hf & Hmax).
    destruct Hmax as [Hin _]. apply list_elem_of_lookup_1 in Hin as [k Hk].
    destruct (Hf k best Hk) as (v & Hv & Hsub). by eapply Hhook.
  - exists e. split; [done|]. by eapply Herr.
Qed.

Lemma unsubscriptable_hook_never_completes_witness :
  (∀ p k ds v x, none_epoch p k ds = Ok v → subscript1 v ≠ Ok x) ∧
  ∃ e, (main none_epoch (Args_init 28000) (DatasetObj docs3 None) ∅).1 = Err e ∧
       st_best_scores (main none_epoch (Args_init 28000) (DatasetObj docs3 None) ∅).2 = [].
Proof.
  assert (∀ p k ds v x, none_epoch p k ds = Ok v → subscript1 v ≠ Ok x) as Hhook.
  { intros p k ds v x [= <-]. discriminate. }
  split; [exact Hhook|].
  exact (unsubscriptable_hook_never_completes none_epoch (Args_init 28000)
           (DatasetObj docs3 None) ∅ Hhook).
Defined.

(** X22: with fewer than one epoch (int(num_train_epochs) = 0) main cannot
    complete either: it raises without entering an epoch or recording a
    score, since the maximum of no scores does not exist. *)
Theorem zero_epochs_never_completes epoch args dataset (h : heap) :
  int_range (num_train_epochs args) = 0%nat →
  ∃ e, (main epoch args dataset h).1 = Err e ∧
       st_best_scores (main epoch args dataset h).2 = [] ∧
       st_epochs (main epoch args dataset h).2 = [].
Proof.
  intros Hn. unfold main.
  set (st0 := mkMainState _ _ _ _).
  assert (∃ p ps, probs args = p :: ps) as (p & ps & ->).
  { unfold probs. destruct (all_mask args); by eexists _, _. }
  rewrite sweep_cons.
  destruct (main_config_effect epoch args dataset p st0) as (m & Hm & Hep & _ & _ & Herr & _).
  destruct (main_config epoch args dataset p st0) as [[[]|e] st1] eqn:Hcfg; simpl in *.
  - exfalso. apply main_config_Ok in Hcfg as (best & _ & ds & tk & firsts & _ & _ & Hlen & _ & Hmax).
    destruct Hmax as [Hin _]. rewrite Hn in Hlen.
    destruct firsts; [by apply elem_of_nil in Hin|done].
  - exists e. split; [done|]. split; [by eapply Herr|].
    rewrite Hep. replace m with 0%nat by lia. done.
Qed.

Lemma zero_epochs_never_completes_witness :
  int_range (num_train_epochs (with_gas 1 (1 # 2) sweep_args)) = 0%nat ∧
  ∃ e, (main pair_epoch (with_gas 1 (1 # 2) sweep_args) (DatasetObj docs3 None) ∅).1
         = Err e ∧
       st_best_scores
         (main pair_epoch (with_gas 1 (1 # 2) sweep_args) (DatasetObj docs3 None) ∅).2 = [] ∧
       st_epochs
         (main pair_epoch (with_gas 1 (1 # 2) sweep_args) (DatasetObj docs3 None) ∅).2 = [].
Proof.
  split; [reflexivity|].
  apply (zero_epochs_never_completes pair_epoch (with_gas 1 (1 # 2) sweep_args)
           (DatasetObj docs3 None) ∅).
  reflexivity.
Defined.



(** X24: without entity weighting main never changes the store of the
    caller's entity sets, whether it completes or raises. *)
Theorem unweighted_sweep_leaves_entities epoch args dataset (h : heap) :
  weighted args = false →
  st_heap (main epoch args dataset h).2 = h.
Proof.
  intros Hw. unfold main.
  set (st0 := mkMainState _ _ _ _).
  destruct (sweep_effect epoch args dataset (probs args) st0) as (Hheap & _).
  by rewrite Hheap.
Qed.

Lemma unweighted_sweep_leaves_entities_witness :
  weighted sweep_args = false ∧
  st_heap (main pair_epoch sweep_args (DatasetObj docs3 (Some [mkEntity 0 1])) entity_heap).2
    = entity_heap.
Proof.
  split; [reflexivity|].
  apply (unweighted_sweep_leaves_entities pair_epoch sweep_args). reflexivity.
Defined.

(** X25: with do_train unset (and valid accumulation steps) main raises
    ValueError in its first configuration, after the batch size has been
    divided once: no corpus is read, no epoch entered, no score recorded. *)
Theorem do_train_unset_is_rejected epoch args dataset (h : heap) :
  1 ≤ gradient_accumulation_steps args →
  do_train args = false →
  ∃ msg, main epoch args dataset h =
    (Err (ValueError msg),
     {| st_batch_size := train_batch_size args `div` gradient_accumulation_steps args;
        st_heap := h; st_best_scores := []; st_epochs := [] |}).
Proof.
  intros Hgas Htrain. unfold main.
  assert (∃ p ps, probs args = p :: ps) as (p & ps & ->).
  { unfold probs. destruct (all_mask args); by eexists _, _. }
  rewrite sweep_cons.
  unfold main_config, mbind, St_bind, mret, St_ret, raise, get_state, set_batch_size.
  simpl. replace (gradient_accumulation_steps args <? 1) with false by lia.
  rewrite Htrain. by eexists.
Qed.

Lemma do_train_unset_is_rejected_witness :
  1 ≤ gradient_accumulation_steps (without_training (with_gas 3 2 sweep_args)) ∧
  do_train (without_training (with_gas 3 2 sweep_args)) = false ∧
  ∃ msg, main pair_epoch (without_training (with_gas 3 2 sweep_args))
           (DatasetPath ["hello world"]) ∅ =
    (Err (ValueError msg),
     {| st_batch_size :=
          train_batch_size (without_training (with_gas 3 2 sweep_args))
            `div` gradient_accumulation_steps (without_training (with_gas 3 2 sweep_args));
        st_heap := ∅; st_best_scores := []; st_epochs := [] |}).
Proof.
  split; [simpl; lia|]. split; [reflexivity|].
  apply (do_train_unset_is_rejected pair_epoch
           (without_training (with_gas 3 2 sweep_args)) (DatasetPath ["hello world"]) ∅).
  - simpl; lia.
  - reflexivity.
Defined.

(** X26: when the division by gradient_accumulation_steps leaves a batch
    size of 0 (a batch size smaller than the accumulation steps) and the
    corpus loads, main raises ZeroDivisionError when it computes the
    number of optimization steps, before the tokenizer is built and
    before any epoch. *)
Theorem zero_batch_size_raises epoch args dataset (h : heap) ds :
  1 ≤ gradient_accumulation_steps args →
  do_train args = true →
  train_batch_size args `div` gradient_accumulation_steps args = 0 →
  MyDataset_init match dataset with
                 | DatasetPath lines => CorpusPath lines
                 | DatasetObj data _ => CorpusList data
                 end (max_seq_length args) = Ok ds →
  main epoch args dataset h =
    (Err ZeroDivisionError,
     {| st_batch_size := 0; st_heap := h; st_best_scores := []; st_epochs := [] |}).
Proof.
  intros Hgas Htrain Hzero Hload. unfold main.
  assert (∃ p ps, probs args = p :: ps) as (p & ps & ->).
  { unfold probs. destruct (all_mask args); by eexists _, _. }
  rewrite sweep_cons.
  unfold main_config, mbind, St_bind, mret, St_ret, raise, lift, get_state, set_batch_size.
  cbn [st_batch_size st_heap st_best_scores st_epochs].
  replace (gradient_accumulation_steps args <? 1) with false by lia.
  cbn [st_batch_size st_heap st_best_scores st_epochs].
  rewrite Htrain, Hload, Hzero. reflexivity.
Qed.

Lemma zero_batch_size_raises_witness :
  main pair_epoch (with_gas 33 2 sweep_args) (DatasetObj docs3 None) ∅ =
    (Err ZeroDivisionError,
     {| st_batch_size := 0; st_heap := ∅; st_best_scores := []; st_epochs := [] |}).
Proof.
  eapply (zero_batch_size_raises pair_epoch (with_gas 33 2 sweep_args)
            (DatasetObj docs3 None) ∅).
  - simpl; lia.
  - reflexivity.
  - reflexivity.
  - reflexivity.
Defined.

(** ** The caller's corpus: load_ai_data and get_MD2vec_embed *)

Lemma ai_lines_tail tail : ∀ docs doc,
  Forall (λ l, l ≠ NL) tail →
  foldl ai_line (docs, doc) tail = (docs, doc ++ (Str.strip <$> tail)).
Proof.
  induction tail as [|l tail IH]; intros docs doc Htail; simpl.
  - by rewrite app_nil_r.
  - apply Forall_cons in Htail as [Hl Htail].
    unfold ai_line at 2. rewrite bool_decide_eq_false_2 by done. simpl.
    rewrite IH by done. by rewrite <- app_assoc.
Qed.

Lemma ai_lines_blocks blocks : ∀ docs,
  Forall (λ b, Forall (λ l, l ≠ NL) b) blocks →
  foldl ai_line (docs, []) (ai_file blocks)
    = (docs ++ ((λ b, Str.join " " (Str.strip <$> b)) <$> blocks), []).
Proof.
  induction blocks as [|b blocks IH]; intros docs Hb.
  - simpl. by rewrite app_nil_r.
  - apply Forall_cons in Hb as [Hb Hbs].
    unfold ai_file. rewrite fmap_cons.
    change (concat (?x :: ?l)) with (x ++ concat l).
    rewrite <- app_assoc, !foldl_app, ai_lines_tail by done.
    simpl. unfold ai_line at 2. rewrite bool_decide_eq_true_2 by done. simpl.
    fold (ai_file blocks). rewrite IH by done. by rewrite <- app_assoc.
Qed.

Lemma ai_lines_count lines : ∀ docs doc,
  length (foldl ai_line (docs, doc) lines).1
    = (length docs + length (filter (λ l, l = NL) lines))%nat.
Proof.
  induction lines as [|l lines IH]; intros docs doc; simpl; [lia|].
  unfold ai_line at 2. rewrite filter_cons. case_bool_decide as Hl; simpl.
  - rewrite decide_True by done. rewrite IH, length_app. simpl. lia.
  - rewrite decide_False by done. by rewrite IH.
Qed.

(** X27: load_ai_data returns one document per line of the file that is
    exactly a newline, whatever the other lines are. *)
Theorem ai_docs_one_per_newline_line (lines : list string) :
  length (load_ai_docs lines) = length (filter (λ l, l = NL) lines).
Proof. unfold load_ai_docs. by rewrite ai_lines_count. Qed.

(** X28: the documents of load_ai_data are the blocks closed by a line
    that is exactly a newline, each block's stripped lines joined by one
    space; lines after the last such line belong to no document: a last
    block that is not closed is dropped. *)
Theorem ai_docs_are_closed_blocks (blocks : list (list string)) (tail : list string) :
  Forall (λ b, Forall (λ l, l ≠ NL) b) blocks →
  Forall (λ l, l ≠ NL) tail →
  load_ai_docs (ai_file blocks ++ tail)
    = (λ b, Str.join " " (Str.strip <$> b)) <$> blocks.
Proof.
  intros Hb Htail. unfold load_ai_docs.
  rewrite foldl_app, ai_lines_blocks, ai_lines_tail by done. done.
Qed.

Lemma ai_docs_are_closed_blocks_witness :
  load_ai_docs (ai_file [[" deep learning" +:+ NL; "for text " +:+ NL]; []]
                  ++ ["lost" +:+ NL; "line"])
    = ["deep learning for text"; EmptyString].
Proof.
  apply (ai_docs_are_closed_blocks [[" deep learning" +:+ NL; "for text " +:+ NL]; []]
           ["lost" +:+ NL; "line"]).
  - repeat first [apply Forall_nil_2 | apply Forall_cons; split]; discriminate.
  - repeat first [apply Forall_nil_2 | apply Forall_cons; split]; discriminate.
Defined.

(** X29: when the file read by load_ai_data has fewer than two lines that
    are exactly a newline, the run of main that get_MD2vec_embed starts
    (with Args() and the loaded documents) raises ValueError while it
    builds the tokenizer: no epoch is entered, the hook is never called
    and no score is recorded. *)
Theorem few_ai_documents_stop_md2vec epoch (lines : list string) ents (h : heap) V :
  (length (filter (λ l, l = NL) lines) < 2)%nat →
  ∃ msg, main epoch (Args_init V) (DatasetObj (load_ai_docs lines) ents) h =
    (Err (ValueError msg),
     {| st_batch_size := 32; st_heap := h; st_best_scores := []; st_epochs := [] |}).
Proof.
  intros Hfew. unfold main.
  change (probs (Args_init V)) with [-1; 1 # 4; 1 # 2; 3 # 4; 1]%Q.
  rewrite sweep_cons.
  unfold main_config, mbind, St_bind, mret, St_ret, raise, lift, get_state, set_batch_size.
  cbn [st_batch_size st_heap st_best_scores st_epochs Args_init
       gradient_accumulation_steps do_train train_batch_size max_seq_length
       vocab_size do_lower_case MyDataset_init load_corpus all_docs].
  change (1 <? 1) with false. change (32 `div` 1) with 32. change (32 =? 0) with false.
  unfold MyDataset_init, load_corpus, mbind, result_bind.
  cbn [all_docs].
  destruct (Tokenizer_init (load_ai_docs lines) V true) as [tk|e] eqn:Hinit.
  - apply Tokenizer_init_needs_two_docs in Hinit.
    unfold load_ai_docs in Hinit. rewrite ai_lines_count in Hinit. simpl in Hinit. lia.
  - apply Tokenizer_init_Err in Hinit as [msg ->]. by exists msg.
Qed.

Lemma few_ai_documents_stop_md2vec_witness :
  (length (filter (λ l, l = NL) ["only one" +:+ NL; NL; "unfinished"]) < 2)%nat ∧
  ∃ msg, main none_epoch (Args_init 28000)
           (DatasetObj (load_ai_docs ["only one" +:+ NL; NL; "unfinished"]) (Some [])) ∅ =
    (Err (ValueError msg),
     {| st_batch_size := 32; st_heap := ∅; st_best_scores := []; st_epochs := [] |}).
Proof.
  split; [vm_compute; lia|].
  apply (few_ai_documents_stop_md2vec none_epoch ["only one" +:+ NL; NL; "unfinished"]
           (Some []) ∅ 28000).
  vm_compute; lia.
Defined.

(** ** The hook's co-occurrence counts *)

Lemma mention_ids_kept d e : ids_kept d (mention d e).1.
Proof.
  intros e' i. unfold id_in, mention.
  destruct (d !! Str.lower e) as [x|] eqn:Hx; simpl.
  - destruct (decide (Str.lower e' = Str.lower e)) as [->|Hne].
    + rewrite Hx, lookup_insert_eq. done.
    + by rewrite lookup_insert_ne.
  - destruct (decide (Str.lower e' = Str.lower e)) as [->|Hne].
    + by rewrite Hx.
    + by rewrite lookup_insert_ne.
Qed.

Lemma mention_id d e : id_in (mention d e).1 e = Some (mention d e).2.
Proof.
  unfold id_in, mention.
  destruct (d !! Str.lower e) as [x|] eqn:Hx; simpl; by rewrite lookup_insert_eq.
Qed.

Lemma mentions_fold es : ∀ d ids0,
  ∃ d' ids,
    foldl mention_step (d, ids0) es
      = (d', ids0 ++ ids) ∧
    ids_kept d d' ∧
    Forall2 (λ e i, id_in d' e = Some i) es ids.
Proof.
  induction es as [|e es IH]; intros d ids0.
  - exists d, []. rewrite app_nil_r. split; [done|]. split; [by intros ??|constructor].
  - destruct (IH (mention d e).1 (ids0 ++ [(mention d e).2])) as (d' & ids & Hf & Hk & Hall).
    exists d', ((mention d e).2 :: ids). split; [|split].
    + rewrite <- app_assoc in Hf. exact Hf.
    + intros e' i Hi. by apply Hk, mention_ids_kept.
    + constructor; [|done]. apply Hk, mention_id.
Qed.

Lemma mentions_spec d es :
  ∃ ids, (mentions d es).2 = ids ∧
    ids_kept d (mentions d es).1 ∧
    Forall2 (λ e i, id_in (mentions d es).1 e = Some i) es ids.
Proof.
  unfold mentions. destruct (mentions_fold es d []) as (d' & ids & -> & Hk & Hall).
  by exists ids.
Qed.

Lemma count_pairs_lookup ps : ∀ co ft,
  foldl count_pair co ps !! ft =
    match length (filter (λ x, x = ft) ps) with
    | O => co !! ft
    | S c => Some (default 1%nat (co !! ft) + S c)%nat
    end.
Proof.
  induction ps as [|p ps IH]; intros co ft; [done|].
  cbn [foldl]. rewrite IH, filter_cons.
  assert (count_pair co p !! ft =
          if decide (p = ft) then Some (default 1%nat (co !! ft) + 1)%nat else co !! ft) as ->.
  { unfold count_pair. destruct (decide (p = ft)) as [->|Hne].
    - by rewrite lookup_insert_eq.
    - by rewrite lookup_insert_ne. }
  destruct (decide (p = ft)) as [->|Hne]; [|done].
  cbn [length from_option]. unfold id.
  destruct (length (filter _ ps)); f_equal; lia.
Qed.

Lemma inner_count (f : nat) (ts : list nat) : ∀ co,
  foldl (λ co t, count_pair co (f, t)) co ts
    = foldl count_pair co ((λ t, (f, t)) <$> ts).
Proof.
  induction ts as [|t ts IH]; intros co; [done|].
  rewrite fmap_cons. cbn [foldl]. by rewrite IH.
Qed.

Lemma nested_count (fs ts : list nat) : ∀ co,
  foldl (λ co f, foldl (λ co t, count_pair co (f, t)) co ts) co fs
    = foldl count_pair co (f ← fs; (λ t, (f, t)) <$> ts).
Proof.
  induction fs as [|f fs IH]; intros co; [done|].
  cbn [foldl]. change (f ← f :: fs; (λ t, (f, t)) <$> ts)
    with (((λ t, (f, t)) <$> ts) ++ (f ← fs; (λ t, (f, t)) <$> ts)).
  by rewrite foldl_app, <- IH, inner_count.
Qed.

Lemma count_row (f' f t : nat) (ts : list nat) :
  length (filter (λ x, x = (f, t)) ((λ t', (f', t')) <$> ts))
    = if decide (f' = f) then length (filter (λ x, x = t) ts) else 0%nat.
Proof.
  induction ts as [|t' ts IHt]; [by destruct (decide _)|].
  rewrite fmap_cons, !filter_cons.
  destruct (decide (f' = f)) as [->|Hf].
  - destruct (decide (t' = t)) as [->|Ht].
    + rewrite decide_True by done. cbn [length]. by rewrite IHt.
    + rewrite decide_False by congruence. done.
  - rewrite decide_False by congruence. done.
Qed.

Lemma count_product (fs ts : list nat) (f t : nat) :
  length (filter (λ x, x = (f, t)) (f' ← fs; (λ t', (f', t')) <$> ts))
    = (length (filter (λ x, x = f) fs) * length (filter (λ x, x = t) ts))%nat.
Proof.
  induction fs as [|f' fs IH]; [done|].
  change (f0 ← f' :: fs; (λ t', (f0, t')) <$> ts)
    with (((λ t', (f', t')) <$> ts) ++ (f0 ← fs; (λ t', (f0, t')) <$> ts)).
  rewrite filter_app, length_app, IH, (filter_cons _ f'), count_row.
  destruct (decide (f' = f)); simpl; lia.
Qed.

Lemma count_by_id d (es : list string) (ids : list nat) (i : nat) :
  Forall2 (λ e j, id_in d e = Some j) es ids →
  length (filter (λ x, x = i) ids) = length (filter (λ e, id_in d e = Some i) es).
Proof.
  induction 1 as [|e j es ids Hj _ IH]; [done|].
  rewrite !filter_cons, Hj.
  destruct (decide (j = i)) as [->|Hne].
  - rewrite decide_True by done. simpl. by rewrite IH.
  - rewrite decide_False by congruence. done.
Qed.

Lemma Forall2_ids_kept d d' (es : list string) (ids : list nat) :
  ids_kept d d' →
  Forall2 (λ e j, id_in d e = Some j) es ids →
  Forall2 (λ e j, id_in d' e = Some j) es ids.
Proof. intros Hk H. eapply Forall2_impl; [exact H|]. intros e j. apply Hk. Qed.

Lemma cluster_entities_spec entities : ∀ st (C : nat → nat → nat),
  (∀ f t, co_occurence st !! (f, t) = recorded (C f t)) →
  let st' := foldl cluster_entity st entities in
  ids_kept (fields st) (fields st') ∧ ids_kept (tecs st) (tecs st') ∧
  ∀ f t, co_occurence st' !! (f, t)
         = recorded (C f t + seen_together (fields st') (tecs st') entities f t).
Proof.
  induction entities as [|en entities IH]; intros st C HC; simpl.
  - repeat split; try by intros ??. intros f t. unfold seen_together. simpl.
    by rewrite Nat.add_0_r.
  - destruct (mentions_spec (fields st) en.1) as (fids & HF & HkF & HallF).
    destruct (mentions_spec (tecs st) en.2) as (tids & HT & HkT & HallT).
    set (st1 := cluster_entity st en).
    destruct (IH st1 (λ f t, (C f t + length (filter (λ x, x = f) fids)
                                      * length (filter (λ x, x = t) tids))%nat))
      as (IHF & IHT & IHco).
    { intros f t. unfold st1, cluster_entity. simpl.
      rewrite HF, HT, nested_count, count_pairs_lookup, count_product, HC.
      destruct (length (filter (λ x, x = f) fids) * length (filter (λ x, x = t) tids))%nat
        as [|c] eqn:Hc.
      - by rewrite Nat.add_0_r.
      - unfold recorded. destruct (C f t) as [|c0]; simpl; f_equal; lia. }
    split; [intros e i Hi; by apply IHF, HkF|].
    split; [intros e i Hi; by apply IHT, HkT|].
    intros f t. rewrite IHco. f_equal.
    unfold seen_together. rewrite fmap_cons. simpl.
    rewrite (count_by_id (fields (foldl cluster_entity st1 entities)) en.1 fids f)
      by (by apply (Forall2_ids_kept (mentions (fields st) en.1).1)).
    rewrite (count_by_id (tecs (foldl cluster_entity st1 entities)) en.2 tids t)
      by (by apply (Forall2_ids_kept (mentions (tecs st) en.2).1)).
    lia.
Qed.

(** X30: in the hook's counts for a cluster, the weight recorded for a
    pair of a FIELD id and a TEC id is one more than the number of times
    the two entities are members of the FIELD and of the TEC set of the
    same record, the ids being those of the final dictionaries; a pair
    that never occurs together has no entry.  So a pair seen once has
    weight 2. *)
Theorem co_occurrence_counts_one_more (entities : list (list string * list string))
    (f t : nat) :
  co_occurence (cluster_counts entities) !! (f, t)
    = recorded (seen_together (fields (cluster_counts entities))
                  (tecs (cluster_counts entities)) entities f t).
Proof.
  unfold cluster_counts.
  destruct (cluster_entities_spec entities
              {| fields := ∅; tecs := ∅; co_occurence := ∅ |} (λ _ _, 0%nat))
    as (_ & _ & H).
  - intros f' t'. simpl. by rewrite lookup_empty.
  - by rewrite H.
Qed.

Example co_occurrence_of_one_record :
  co_occurence (cluster_counts [(["NLP"], ["BERT"; "bert"])]) = {[ (1, 1)%nat := 3%nat ]}.
Proof. vm_compute. reflexivity. Qed.
